(** * EMS (Embedded Music Score) parser: a shallow embedding of
      [include/ems_parser.hpp] and the properties of its two passes.

    The header file is C++20 [consteval] code over [float], [int],
    [uint32_t], [size_t] and [std::string_view].  The embedding keeps the
    shape of the source:

    - [float] is IEEE 754 binary32, round to nearest even, through the
      Standard Library's [SpecFloat] at precision 24 and [emax] 128;
    - [int] is [Z]; [parse_int], the one place where a short input
      overflows, wraps to 32 bits two's complement; the counters [oct] and
      [semi] move by one per consumed character and stay in [Z];
    - [std::string_view] is a list of characters, the cursor [i] is an
      index into it, and [score[i]] guarded by [i < score.size()] is a
      lookup [score !! i];
    - [std::array<Note, N>] is a list of length [N]; the unchecked store
      [notes[note_idx] = ...] is a checked [store] whose failure is an
      explicit outcome of [parse];
    - loops run on fuel bounded by the characters left to read.

    Behind the parser come its caller, the playback example [Audio.hpp]
    ([double] is binary64, [std::sin] a parameter), and the earlier copy of
    the parser that still reads a beat header. *)

From Stdlib Require Import ZArith QArith Qround Lia List Ascii String Bool.
From Stdlib Require Import Floats.SpecFloat.
From stdpp Require Import base list.

Local Open Scope Z_scope.

(** ** binary32 arithmetic *)

Module Float32.

Definition prec : Z := 24.
Definition emax : Z := 128.

(** A C++ [float]. *)
Definition float32 : Type := spec_float.

Definition mul : float32 -> float32 -> float32 := SFmul prec emax.
Definition add : float32 -> float32 -> float32 := SFadd prec emax.
Definition div : float32 -> float32 -> float32 := SFdiv prec emax.
Definition ltb : float32 -> float32 -> bool := SFltb.
Definition eqb : float32 -> float32 -> bool := SFeqb.

(** The float nearest to [m * 2^e]; exact when [m] has at most 24 bits. *)
Definition of_scaled (m e : Z) : float32 := binary_normalize prec emax m e false.

(** [static_cast<float>(int)]. *)
Definition of_int (z : Z) : float32 := of_scaled z 0.

(** The literals of the source. *)
Definition f0_0 : float32 := S754_zero false.          (* 0.0f *)
Definition f1_0 : float32 := of_scaled 1 0.            (* 1.0f *)
Definition f2_0 : float32 := of_scaled 2 0.            (* 2.0f *)
Definition f0_5 : float32 := of_scaled 1 (-1).         (* 0.5f *)
Definition f0_25 : float32 := of_scaled 1 (-2).        (* 0.25f *)
Definition f120_0 : float32 := of_scaled 120 0.        (* 120.0f *)
Definition f60000_0 : float32 := of_scaled 60000 0.    (* 60000.0f *)

(** Truncation toward zero of a finite float; [None] on NaN and the
    infinities. *)
Definition trunc (f : float32) : option Z :=
  match f with
  | S754_zero _ => Some 0
  | S754_finite s m e =>
      let mag := if 0 <=? e then Z.shiftl (Zpos m) e else Z.shiftr (Zpos m) (- e) in
      Some (if s then - mag else mag)
  | S754_infinity _ | S754_nan => None
  end.

(** The operands on which C++ defines [static_cast<uint32_t>(float)]:
    the truncated value fits 32 unsigned bits. *)
Definition to_uint32_defined (f : float32) : bool :=
  match trunc f with
  | Some z => (0 <=? z) && (z <? 2 ^ 32)
  | None => false
  end.

(** [static_cast<uint32_t>(float)].  Where the language defines it, the
    truncated value; elsewhere the model takes the truncated value modulo
    [2^32], and [0] for NaN and the infinities. *)
Definition to_uint32 (f : float32) : Z :=
  match trunc f with
  | Some z => z mod 2 ^ 32
  | None => 0
  end.

(** The exact rational value of a finite float. *)
Definition to_Q (f : float32) : option Q :=
  match f with
  | S754_zero _ => Some (0 # 1)%Q
  | S754_finite s m e =>
      let q := if 0 <=? e then inject_Z (Z.shiftl (Zpos m) e)
               else (Zpos m # Pos.shiftl 1 (Z.to_N (- e)))%Q in
      Some (if s then Qopp q else q)
  | S754_infinity _ | S754_nan => None
  end.

End Float32.

Import Float32.

(** ** namespace ems *)

Module ems.

(** [struct Note]. *)
Record Note : Type := mkNote { ratio : float32; duration_ms : Z }.

Module internal.

(** The [for] loop of [power]: [res *= base], [n] times. *)
Fixpoint power_loop (base : float32) (n : nat) (res : float32) : float32 :=
  match n with
  | O => res
  | S n' => power_loop base n' (mul res base)
  end.

(** [power].  The recursive call on [-exp] has a positive exponent and
    goes straight to the loop, so it is unfolded once. *)
Definition power (base : float32) (exp : Z) : float32 :=
  if exp =? 0 then f1_0
  else if exp <? 0 then div f1_0 (power_loop base (Z.to_nat (- exp)) f1_0)
  else power_loop base (Z.to_nat exp) f1_0.

(** [scale_semitones[]]. *)
Definition scale_semitones : list Z := [0; 0; 2; 4; 5; 7; 9; 11].

(** [SEMITONE_STEP = 1.059463094f]: the binary32 nearest to the decimal
    literal is [8887421 * 2^-23] (lemma [SEMITONE_STEP_literal]). *)
Definition SEMITONE_STEP : float32 := S754_finite false 8887421 (-23).

(** [calculate_ratio].  A [note_num] outside the table (undefined in
    the source, and never produced by [parse]) reads 0. *)
Definition calculate_ratio (note_num octave_offset semitone_offset : Z) : float32 :=
  if note_num =? 0 then f0_0
  else
    let semitones_from_C4 :=
      nth (Z.to_nat note_num) scale_semitones 0
      + octave_offset * 12 + semitone_offset in
    let semitones_from_A4 := semitones_from_C4 - 9 in
    power SEMITONE_STEP semitones_from_A4.

(** *** Characters and the string view *)

(** [std::string_view]. *)
Definition string_view : Type := list ascii.

(** A string literal as a view. *)
Definition sv (s : string) : string_view := list_ascii_of_string s.

(** The value of a [char] in the comparisons and subtractions of the
    source. *)
Definition code (c : ascii) : Z := Z.of_N (N_of_ascii c).

(** [c >= lo && c <= hi]. *)
Definition in_range (lo hi c : ascii) : bool :=
  (code lo <=? code c) && (code c <=? code hi).

(** [c >= '0' && c <= '9']. *)
Definition is_decimal_digit : ascii -> bool := in_range "0" "9".

(** [c >= '0' && c <= '7']. *)
Definition is_scale_digit : ascii -> bool := in_range "0" "7".

(** [(c >= '0' && c <= '7') || c == '`'], the note-start test of
    [parse]. *)
Definition is_note_start (c : ascii) : bool :=
  is_scale_digit c || Ascii.eqb c "`".

(** *** parse_int *)

(** [int] arithmetic that leaves the 32-bit range wraps (two's
    complement). *)
Definition int_wrap (z : Z) : Z := (z + 2 ^ 31) mod 2 ^ 32 - 2 ^ 31.

(** The [while] loop of [parse_int]; [rest] is the view from [idx] on. *)
Fixpoint parse_int_loop (rest : string_view) (val : Z) (idx : nat) : Z * nat :=
  match rest with
  | c :: rest' =>
      if is_decimal_digit c
      then parse_int_loop rest' (int_wrap (val * 10 + (code c - code "0"))) (S idx)
      else (val, idx)
  | [] => (val, idx)
  end.

(** [parse_int(sv, idx)]: the value and the updated [idx]. *)
Definition parse_int (score : string_view) (idx : nat) : Z * nat :=
  parse_int_loop (drop idx score) 0 idx.

(** *** Parser::count_notes *)

(** [while (i < score.size() && score[i] != ')') i++;] with [rest] the
    view from [i] on. *)
Fixpoint skip_to_close (rest : string_view) (i : nat) : nat :=
  match rest with
  | c :: rest' => if Ascii.eqb c ")" then i else skip_to_close rest' (S i)
  | [] => i
  end.

(** The "Skip Header" loop.  Every turn moves [i] forward, so
    [length score - i] turns are enough. *)
Fixpoint skip_header (fuel : nat) (score : string_view) (i : nat) : nat :=
  match fuel with
  | O => i
  | S fuel' =>
      match score !! i with
      | Some c =>
          if Ascii.eqb c "("
          then skip_header fuel' score (S (skip_to_close (drop i score) i))
          else i
      | None => i
      end
  end.

(** The "Scan Body" loop, [rest] the view from [i] on; both branches
    end in [i++]. *)
Fixpoint scan_body (rest : string_view) (count : nat) : nat :=
  match rest with
  | c :: rest' =>
      if is_scale_digit c then scan_body rest' (S count) else scan_body rest' count
  | [] => count
  end.

Definition count_notes (score : string_view) : nat :=
  let i := skip_header (length score) score 0 in
  scan_body (drop i score) 0.

(** *** Parser::parse *)

(** The header block of [parse]: the tempo and the cursor behind it. *)
Definition parse_header (score : string_view) : float32 * nat :=
  match score !! 0%nat with
  | Some c =>
      if Ascii.eqb c "("
      then
        let '(val, i) := parse_int score 1 in
        let bpm := of_int val in
        match score !! i with
        | Some c' => if Ascii.eqb c' ")" then (bpm, S i) else (bpm, i)
        | None => (bpm, i)
        end
      else (f120_0, 0%nat)
  | None => (f120_0, 0%nat)
  end.

(** The locals of one note. *)
Record NoteLocals : Type := mkLocals {
  num : Z;
  oct : Z;
  semi : Z;
  dur_mult : float32;
  parsing_duration : bool
}.

Definition note_init : NoteLocals :=
  {| num := 0; oct := 0; semi := 0; dur_mult := f0_0; parsing_duration := false |}.

Definition add_duration (d : float32) (l : NoteLocals) : NoteLocals :=
  {| num := num l; oct := oct l; semi := semi l;
     dur_mult := add (dur_mult l) d; parsing_duration := true |}.

(** The [switch (mod)], [m] standing for [mod].  [None] is [loop = false; continue]: the
    character is not consumed and the run ends. *)
Definition switch_mod (m : ascii) (l : NoteLocals) : option NoteLocals :=
  if Ascii.eqb m "s" || Ascii.eqb m "b" || Ascii.eqb m "`" then
    if parsing_duration l then None
    else if Ascii.eqb m "s" then
      Some {| num := num l; oct := oct l; semi := semi l + 1;
              dur_mult := dur_mult l; parsing_duration := parsing_duration l |}
    else if Ascii.eqb m "b" then
      Some {| num := num l; oct := oct l; semi := semi l - 1;
              dur_mult := dur_mult l; parsing_duration := parsing_duration l |}
    else
      Some {| num := num l; oct := oct l + 1; semi := semi l;
              dur_mult := dur_mult l; parsing_duration := parsing_duration l |}
  else if Ascii.eqb m "," then Some (add_duration f1_0 l)
  else if Ascii.eqb m "-" then Some (add_duration f0_5 l)
  else if Ascii.eqb m "." then Some (add_duration f0_25 l)
  else if Ascii.eqb m "_" then Some (add_duration f2_0 l)
  else None.

(** The suffix-modifier loop, [rest] the view from [i] on. *)
Fixpoint modifier_loop (rest : string_view) (i : nat) (l : NoteLocals) : nat * NoteLocals :=
  match rest with
  | m :: rest' =>
      match switch_mod m l with
      | Some l' => modifier_loop rest' (S i) l'
      | None => (i, l)
      end
  | [] => (i, l)
  end.

(** Steps 1 to 3 of the note block, entered with [score[i]] a note
    start: prefix octave, note number, suffix modifiers. *)
Definition parse_note (score : string_view) (i : nat) : nat * NoteLocals :=
  let l := note_init in
  let '(i, l) :=
    match score !! i with
    | Some c =>
        if Ascii.eqb c "`"
        then (S i, {| num := num l; oct := oct l - 1; semi := semi l;
                      dur_mult := dur_mult l; parsing_duration := parsing_duration l |})
        else (i, l)
    | None => (i, l)
    end in
  let '(i, l) :=
    match score !! i with
    | Some c =>
        if is_scale_digit c
        then (S i, {| num := code c - code "0"; oct := oct l; semi := semi l;
                      dur_mult := dur_mult l; parsing_duration := parsing_duration l |})
        else (i, l)
    | None => (i, l)
    end in
  modifier_loop (drop i score) i l.

(** The event written for a parsed note. *)
Definition emit (ms_per_beat : float32) (l : NoteLocals) : Note :=
  {| ratio := calculate_ratio (num l) (oct l) (semi l);
     duration_ms := to_uint32 (mul ms_per_beat (dur_mult l)) |}.

(** [notes[k] = v] on a [std::array]: defined only inside the array. *)
Definition store (notes : list Note) (k : nat) (v : Note) : option (list Note) :=
  if (k <? length notes)%nat then Some (<[k := v]> notes) else None.

(** The locals of [parse] that live across the body loop. *)
Record Locals : Type := mkState {
  notes : list Note;
  note_idx : nat;
  i : nat
}.

Inductive outcome : Type :=
| Returned (st : Locals)
| OutOfBounds
| OutOfFuel.

(** The "Body Parsing" loop.  One unit of fuel per turn; a turn
    consumes at least one character. *)
Fixpoint body_loop (fuel N : nat) (score : string_view) (ms_per_beat : float32)
    (st : Locals) : outcome :=
  match score !! i st with
  | Some c =>
      if (note_idx st <? N)%nat then
        match fuel with
        | O => OutOfFuel
        | S fuel' =>
            if is_note_start c then
              let '(i', l) := parse_note score (i st) in
              match store (notes st) (note_idx st) (emit ms_per_beat l) with
              | Some notes' =>
                  body_loop fuel' N score ms_per_beat
                    {| notes := notes'; note_idx := S (note_idx st); i := i' |}
              | None => OutOfBounds
              end
            else
              body_loop fuel' N score ms_per_beat
                {| notes := notes st; note_idx := note_idx st; i := S (i st) |}
        end
      else Returned st
  | None => Returned st
  end.

(** [60000.0f / bpm]. *)
Definition ms_per_beat_of (bpm : float32) : float32 := div f60000_0 bpm.

(** [parse<N>(score)], with the final locals instead of [notes] alone. *)
Definition parse (N : nat) (score : string_view) : outcome :=
  let notes0 := replicate N {| ratio := f0_0; duration_ms := 0 |} in
  let '(bpm, i0) := parse_header score in
  body_loop (length score - i0) N score (ms_per_beat_of bpm)
    {| notes := notes0; note_idx := 0; i := i0 |}.

End internal.

Module literals.
Import internal.

(** [operator""_ems]: the two passes. *)
Definition ems_literal (score : string_view) : outcome :=
  parse (count_notes score) score.

End literals.

End ems.

Import ems ems.internal ems.literals.

Local Open Scope Z_scope.

(** ** binary64 arithmetic, for the playback example *)

Module Float64.

Definition prec : Z := 53.
Definition emax : Z := 1024.

(** A C++ [double]. *)
Definition float64 : Type := spec_float.

Definition mul : float64 -> float64 -> float64 := SFmul prec emax.
Definition add : float64 -> float64 -> float64 := SFadd prec emax.
Definition sub : float64 -> float64 -> float64 := SFsub prec emax.
Definition div : float64 -> float64 -> float64 := SFdiv prec emax.
Definition ltb : float64 -> float64 -> bool := SFltb.

Definition of_scaled (m e : Z) : float64 := binary_normalize prec emax m e false.

(** [uint32_t] to [double]: exact. *)
Definition of_uint32 (z : Z) : float64 := of_scaled z 0.

(** [float] to [double], the promotion of [baseFreq * n.ratio]: exact, the
    mantissa is only widened. *)
Definition of_float32 (f : float32) : float64 :=
  match f with
  | S754_finite s m e => binary_normalize prec emax (cond_Zopp s (Zpos m)) e s
  | _ => f
  end.

(** [static_cast<float>(double)]: rounded to nearest. *)
Definition to_float32 (d : float64) : float32 :=
  match d with
  | S754_finite s m e =>
      binary_normalize Float32.prec Float32.emax (cond_Zopp s (Zpos m)) e s
  | _ => d
  end.

End Float64.

(** ** example/basic: Audio.hpp *)

Module Audio.

Definition uint32_wrap (z : Z) : Z := z mod 2 ^ 32.
Definition uint64_wrap (z : Z) : Z := z mod 2 ^ 64.

(** [baseFreq = 440.0], [twoPi = 6.283185307179586] and
    [amplitude = 0.2f]. *)
Definition baseFreq : Float64.float64 := Float64.of_scaled 440 0.
Definition twoPi : Float64.float64 := S754_finite false 7074237752028440 (-50).
Definition amplitude : float32 := S754_finite false 13421773 (-26).

(** [static_cast<uint32_t>(static_cast<uint64_t>(n.duration_ms) * sampleRate / 1000)]. *)
Definition sample_count (duration_ms sampleRate : Z) : Z :=
  uint32_wrap (uint64_wrap (duration_ms * sampleRate) / 1000).

(** The fade-in and fade-out of one sample; [samples - fadeSamples] and
    [samples - i] are [uint32_t] subtractions. *)
Definition envelope (i samples fadeSamples : Z) : float32 :=
  if i <? fadeSamples then div (of_int i) (of_int fadeSamples)
  else if (uint32_wrap (samples - fadeSamples) <? i) && (fadeSamples <? samples)
  then let tail := uint32_wrap (samples - i) in
       div (of_int tail) (of_int fadeSamples)
  else f1_0.

Section Synthesis.

(** [std::sin] on [double], from the C library. *)
Variable sin : Float64.float64 -> Float64.float64.

(** The sample loop of one note: [count] turns are left, [i] is the loop
    index. *)
Fixpoint sample_loop (count : nat) (i samples fadeSamples : Z) (startIndex : nat)
    (phaseInc phase : Float64.float64) (pcm : list float32) : list float32 :=
  match count with
  | O => pcm
  | S count' =>
      let env := envelope i samples fadeSamples in
      let pcm' :=
        <[(startIndex + Z.to_nat i)%nat :=
            mul (mul amplitude env) (Float64.to_float32 (sin phase))]> pcm in
      let phase1 := Float64.add phase phaseInc in
      let phase2 :=
        if Float64.ltb twoPi phase1 then Float64.sub phase1 twoPi else phase1 in
      sample_loop count' (i + 1) samples fadeSamples startIndex phaseInc phase2 pcm'
  end.

(** The body of the loop over the notes. *)
Definition add_note (sampleRate : Z) (pcm : list float32) (n : Note) : list float32 :=
  let fadeSamples := sampleRate / 200 in
  let freq := Float64.mul baseFreq (Float64.of_float32 (ratio n)) in
  let samples := sample_count (duration_ms n) sampleRate in
  let phase := S754_zero false in
  let phaseInc :=
    Float64.div (Float64.mul twoPi freq) (Float64.of_uint32 sampleRate) in
  let startIndex := length pcm in
  let pcm := pcm ++ replicate (Z.to_nat samples) f0_0 in
  let pcm :=
    sample_loop (Z.to_nat samples) 0 samples fadeSamples startIndex phaseInc phase pcm in
  let gap := sampleRate / 1000 in
  pcm ++ replicate (Z.to_nat gap) f0_0.

(** [generatePCM(notes, pcm, sampleRate)]: the new contents of [pcm]. *)
Definition generatePCM (notes : list Note) (pcm : list float32) (sampleRate : Z)
    : list float32 :=
  fold_left (add_note sampleRate) notes [].

End Synthesis.

(** [struct PlaybackState]; [data] is the vector behind the pointer. *)
Record PlaybackState : Type := mkPlayback {
  data : list float32;
  total : Z;
  cursor : Z
}.

(** [std::memcpy(dst, src + off, n * sizeof(float))]. *)
Definition memcpy (dst src : list float32) (off n : nat) : list float32 :=
  take n (drop off src) ++ drop n dst.

(** [std::memset(dst + off, 0, n * sizeof(float))]: all-zero bytes are
    [0.0f]. *)
Definition memset_zero (dst : list float32) (off n : nat) : list float32 :=
  take off dst ++ replicate n f0_0 ++ drop (off + n) dst.

(** [config.dataCallback]: the state and the output buffer after one
    call. *)
Definition dataCallback (st : PlaybackState) (out : list float32) (frameCount : Z)
    : PlaybackState * list float32 :=
  let samplesToWrite := frameCount in
  let samplesLeft := uint64_wrap (total st - cursor st) in
  let n := if samplesToWrite <? samplesLeft then samplesToWrite else samplesLeft in
  let '(st1, out1) :=
    if 0 <? n
    then ({| data := data st; total := total st;
             cursor := uint64_wrap (cursor st + n) |},
          memcpy out (data st) (Z.to_nat (cursor st)) (Z.to_nat n))
    else (st, out) in
  let out2 :=
    if n <? samplesToWrite
    then memset_zero out1 (Z.to_nat n) (Z.to_nat (samplesToWrite - n))
    else out1 in
  (st1, out2).

(** The state [playMelody] starts the device with. *)
Definition playback_init (pcm : list float32) : PlaybackState :=
  {| data := pcm; total := Z.of_nat (length pcm); cursor := 0 |}.

(** The device calling back with buffers of the given frame counts: the
    final state and everything it was handed, in order. *)
Fixpoint run_device (st : PlaybackState) (buffers : list (list float32))
    : PlaybackState * list float32 :=
  match buffers with
  | [] => (st, [])
  | out :: buffers' =>
      let '(st1, out1) := dataCallback st out (Z.of_nat (length out)) in
      let '(st2, outs) := run_device st1 buffers' in
      (st2, out1 ++ outs)
  end.

End Audio.

Import Audio.

(** ** src/unnamed/part_001: the parser with the beat header

    An earlier copy of the header file.  [power] and [parse_int] are the
    same functions ([constexpr] instead of [consteval]); [Note] and the
    locals of [parse] are the same; the ratio is relative to Do, the
    counting pass consumes whole notes, and a duration unit sets the
    duration instead of adding to it. *)

Module Legacy.

(** [calculate_ratio]: no shift to A4. *)
Definition calculate_ratio (note_num octave_offset semitone_offset : Z) : float32 :=
  if note_num =? 0 then f0_0
  else
    let total_semitones :=
      nth (Z.to_nat note_num) scale_semitones 0
      + (octave_offset * 12) + semitone_offset in
    power SEMITONE_STEP total_semitones.

(** [while (i < score.size() && score[i] != close) i++;] *)
Fixpoint skip_to (close : ascii) (rest : string_view) (i : nat) : nat :=
  match rest with
  | c :: rest' => if Ascii.eqb c close then i else skip_to close rest' (S i)
  | [] => i
  end.

(** The "Skip Header" loop of [count_notes]: groups in parentheses and in
    braces, in any order and number. *)
Fixpoint skip_header (fuel : nat) (score : string_view) (i : nat) : nat :=
  match fuel with
  | O => i
  | S fuel' =>
      match score !! i with
      | Some c =>
          if Ascii.eqb c "("
          then skip_header fuel' score (S (skip_to ")" (drop i score) i))
          else if Ascii.eqb c "{"
          then skip_header fuel' score (S (skip_to "}" (drop i score) i))
          else i
      | None => i
      end
  end.

(** [c == ',' || c == ' ' || c == '\n' || c == '\r']. *)
Definition is_separator (c : ascii) : bool :=
  Ascii.eqb c "," || Ascii.eqb c " " || Ascii.eqb c "010" || Ascii.eqb c "013".

(** [is_mod] of the counting pass. *)
Definition is_mod (n : ascii) : bool :=
  Ascii.eqb n "s" || Ascii.eqb n "b" || Ascii.eqb n "," || Ascii.eqb n "-"
  || Ascii.eqb n "." || Ascii.eqb n "_" || Ascii.eqb n "`".

(** "Consume modifiers", [rest] the view from [i] on. *)
Fixpoint skip_mods (rest : string_view) (i : nat) : nat :=
  match rest with
  | n :: rest' => if is_mod n then skip_mods rest' (S i) else i
  | [] => i
  end.

(** What the counting pass consumes for one note: prefix, digit,
    modifiers. *)
Definition count_note (score : string_view) (i : nat) : nat :=
  let i :=
    match score !! i with
    | Some c => if Ascii.eqb c "`" then S i else i
    | None => i
    end in
  let i :=
    match score !! i with
    | Some c => if is_scale_digit c then S i else i
    | None => i
    end in
  skip_mods (drop i score) i.

(** The "Scan Body" loop of [count_notes]. *)
Fixpoint scan_body (fuel : nat) (score : string_view) (i count : nat) : nat :=
  match score !! i with
  | Some c =>
      match fuel with
      | O => count
      | S fuel' =>
          if is_separator c then scan_body fuel' score (S i) count
          else if is_note_start c
          then scan_body fuel' score (count_note score i) (S count)
          else scan_body fuel' score (S i) count
      end
  | None => count
  end.

Definition count_notes (score : string_view) : nat :=
  let i := skip_header (length score) score 0 in
  scan_body (length score - i) score i 0.

(** The header blocks of [parse]: [bpm], [beat_base] and the cursor. *)
Definition parse_header (score : string_view) : Z * Z * nat :=
  let '(bpm, i) :=
    match score !! 0%nat with
    | Some c =>
        if Ascii.eqb c "("
        then
          let '(val, i) := parse_int score 1 in
          match score !! i with
          | Some c' => if Ascii.eqb c' ")" then (val, S i) else (val, i)
          | None => (val, i)
          end
        else (120, 0%nat)
    | None => (120, 0%nat)
    end in
  match score !! i with
  | Some c =>
      if Ascii.eqb c "{"
      then
        let '(val, i') := parse_int score (S i) in
        match score !! i' with
        | Some c' => if Ascii.eqb c' "}" then (bpm, val, S i') else (bpm, val, i')
        | None => (bpm, val, i')
        end
      else (bpm, 4, i)
  | None => (bpm, 4, i)
  end.

(** The locals of one note. *)
Record NoteLocals : Type := mkLocals {
  num : Z;
  oct : Z;
  semi : Z;
  dur_mult : float32
}.

(** [dur_mult] starts at one beat. *)
Definition note_init : NoteLocals :=
  {| num := 0; oct := 0; semi := 0; dur_mult := f1_0 |}.

Definition set_duration (d : float32) (l : NoteLocals) : NoteLocals :=
  {| num := num l; oct := oct l; semi := semi l; dur_mult := d |}.

(** The [switch (score[i])]; [None] is the [default] case. *)
Definition switch_mod (m : ascii) (l : NoteLocals) : option NoteLocals :=
  if Ascii.eqb m "s"
  then Some {| num := num l; oct := oct l; semi := semi l + 1; dur_mult := dur_mult l |}
  else if Ascii.eqb m "b"
  then Some {| num := num l; oct := oct l; semi := semi l - 1; dur_mult := dur_mult l |}
  else if Ascii.eqb m "`"
  then Some {| num := num l; oct := oct l + 1; semi := semi l; dur_mult := dur_mult l |}
  else if Ascii.eqb m "," then Some (set_duration f1_0 l)
  else if Ascii.eqb m "-" then Some (set_duration f0_5 l)
  else if Ascii.eqb m "." then Some (set_duration f0_25 l)
  else if Ascii.eqb m "_" then Some (set_duration f2_0 l)
  else None.

Fixpoint modifier_loop (rest : string_view) (i : nat) (l : NoteLocals) : nat * NoteLocals :=
  match rest with
  | m :: rest' =>
      match switch_mod m l with
      | Some l' => modifier_loop rest' (S i) l'
      | None => (i, l)
      end
  | [] => (i, l)
  end.

Definition parse_note (score : string_view) (i : nat) : nat * NoteLocals :=
  let l := note_init in
  let '(i, l) :=
    match score !! i with
    | Some c =>
        if Ascii.eqb c "`"
        then (S i, {| num := num l; oct := oct l - 1; semi := semi l;
                      dur_mult := dur_mult l |})
        else (i, l)
    | None => (i, l)
    end in
  let '(i, l) :=
    match score !! i with
    | Some c =>
        if is_scale_digit c
        then (S i, {| num := code c - code "0"; oct := oct l; semi := semi l;
                      dur_mult := dur_mult l |})
        else (i, l)
    | None => (i, l)
    end in
  modifier_loop (drop i score) i l.

Definition emit (ms_per_beat : float32) (l : NoteLocals) : Note :=
  {| ratio := calculate_ratio (num l) (oct l) (semi l);
     duration_ms := to_uint32 (mul ms_per_beat (dur_mult l)) |}.

(** The "Body Parsing" loop. *)
Fixpoint body_loop (fuel N : nat) (score : string_view) (ms_per_beat : float32)
    (st : Locals) : outcome :=
  match score !! i st with
  | Some c =>
      if (note_idx st <? N)%nat then
        match fuel with
        | O => OutOfFuel
        | S fuel' =>
            if is_separator c then
              body_loop fuel' N score ms_per_beat
                {| notes := notes st; note_idx := note_idx st; i := S (i st) |}
            else if is_note_start c then
              let '(i', l) := parse_note score (i st) in
              match store (notes st) (note_idx st) (emit ms_per_beat l) with
              | Some notes' =>
                  body_loop fuel' N score ms_per_beat
                    {| notes := notes'; note_idx := S (note_idx st); i := i' |}
              | None => OutOfBounds
              end
            else
              body_loop fuel' N score ms_per_beat
                {| notes := notes st; note_idx := note_idx st; i := S (i st) |}
        end
      else Returned st
  | None => Returned st
  end.

(** [parse<N>(score)]; [60000.0f / bpm] converts the [int] tempo. *)
Definition parse (N : nat) (score : string_view) : outcome :=
  let notes0 := replicate N {| ratio := f0_0; duration_ms := 0 |} in
  let '(bpm, beat_base, i0) := parse_header score in
  let ms_per_beat := div f60000_0 (of_int bpm) in
  body_loop (length score - i0) N score ms_per_beat
    {| notes := notes0; note_idx := 0; i := i0 |}.

(** [operator""_ems]. *)
Definition ems_literal (score : string_view) : outcome :=
  parse (count_notes score) score.

End Legacy.

Local Open Scope nat_scope.

(** ** Vocabulary of the specification *)

(** The number of notes in a score: what [parse] writes when the capacity
    cannot run out (no note is shorter than one character). *)
Definition true_note_count (score : string_view) : nat :=
  match parse (length score) score with
  | Returned st => note_idx st
  | _ => 0
  end.

(** Pitch modifiers: the two accidentals and the octave-up marker. *)
Definition is_pitch_modifier (c : ascii) : bool :=
  Ascii.eqb c "s" || Ascii.eqb c "b" || Ascii.eqb c "`".

(** Duration modifiers: the four duration units. *)
Definition is_duration_modifier (c : ascii) : bool :=
  Ascii.eqb c "," || Ascii.eqb c "-" || Ascii.eqb c "." || Ascii.eqb c "_".

(** Octaves and semitones a pitch modifier adds. *)
Definition octave_shift (c : ascii) : Z := if Ascii.eqb c "`" then 1 else 0.
Definition semitone_shift (c : ascii) : Z :=
  if Ascii.eqb c "s" then 1 else if Ascii.eqb c "b" then -1 else 0.

(** Beats a duration unit adds, as a [float]. *)
Definition duration_unit (c : ascii) : float32 :=
  if Ascii.eqb c "," then f1_0
  else if Ascii.eqb c "-" then f0_5
  else if Ascii.eqb c "." then f0_25
  else if Ascii.eqb c "_" then f2_0
  else f0_0.

(** The running beat total of a run of duration units, summed left to
    right in [float] from [acc]. *)
Definition beats_from (acc : float32) (run : string_view) : float32 :=
  fold_left (fun a c => add a (duration_unit c)) run acc.

Definition beats (run : string_view) : float32 := beats_from f0_0 run.

Definition sum_Z (f : ascii -> Z) (run : string_view) : Z :=
  fold_right (fun c a => (f c + a)%Z) 0%Z run.

(** The locals a note ends with, from its text: an optional octave-down
    prefix, its digit, a run of pitch modifiers and a run of duration
    units. *)
Definition note_of (down : bool) (d : ascii) (ps ds : string_view) : NoteLocals :=
  {| num := code d - code "0";
     oct := (if down then -1 else 0) + sum_Z octave_shift ps;
     semi := sum_Z semitone_shift ps;
     dur_mult := beats ds;
     parsing_duration := match ds with [] => false | _ => true end |}.

(** The characters a note starting at [j] consumes, and the duration units
    among them. *)
Definition note_text (score : string_view) (j : nat) : string_view :=
  take ((parse_note score j).1 - j) (drop j score).

Definition duration_units (text : string_view) : string_view :=
  List.filter is_duration_modifier text.

(** The Duration Resolver in the words of the specification, over the
    rationals: [round_down((60000 / tempo) * total)], the total being the
    sum of 1, 1/2, 1/4 and 2 per unit. *)
Definition spec_unit (c : ascii) : Q :=
  if Ascii.eqb c "," then 1
  else if Ascii.eqb c "-" then 1 # 2
  else if Ascii.eqb c "." then 1 # 4
  else if Ascii.eqb c "_" then 2
  else 0.

Definition spec_beats (run : string_view) : Q :=
  fold_left (fun a c => (a + spec_unit c)%Q) run 0%Q.

Definition spec_duration_ms (tempo : Z) (run : string_view) : Z :=
  Qfloor ((60000 # 1) / inject_Z tempo * spec_beats run).

(** A float that is neither NaN nor an infinity. *)
Definition is_finite (f : float32) : bool :=
  match f with
  | S754_zero _ | S754_finite _ _ _ => true
  | S754_infinity _ | S754_nan => false
  end.

(** The modifier run of a note with duration units [ds] ends before
    [rest]: on the end of the input, or on a character that is no duration
    unit and, when no duration unit was read, no pitch modifier either. *)
Definition run_ends (ds rest : string_view) : Prop :=
  match rest with
  | [] => True
  | c :: _ => is_duration_modifier c = false /\ (ds = [] -> is_pitch_modifier c = false)
  end.

(** [60000.0f / 120.0f], the beat at the default tempo. *)
Definition default_ms_per_beat : float32 := ms_per_beat_of f120_0.

(** The Pitch Resolver in the words of the specification: the semitone
    table of the degrees 1 to 7, and a product of [n] factors [base] built
    up from 1 by one multiplication per factor. *)
Definition degree_table : list Z := [0; 2; 4; 5; 7; 9; 11]%Z.

Definition degree_semitones (degree : Z) : Z :=
  nth (Z.to_nat (degree - 1)) degree_table 0%Z.

Definition repeated_product (base : float32) (n : nat) : float32 :=
  fold_left mul (replicate n base) f1_0.

(** Each [float] of the list is below the next one. *)
Fixpoint strictly_increasing (l : list float32) : bool :=
  match l with
  | a :: (b :: _) as rest => ltb a b && strictly_increasing rest
  | _ => true
  end.

(** The score of the end-to-end example. *)
Definition scale_example : string_view := sv "(120)1,2,3,4,5,6,7,1`".

(** The decimal value of a run of digits. *)
Definition decimal_value (ds : string_view) : Z :=
  fold_left (fun v c => (v * 10 + (code c - code "0"))%Z) ds 0%Z.

(** How many characters of a view pass a test. *)
Definition count_if (p : ascii -> bool) (l : string_view) : nat :=
  length (List.filter p l).

(** Whether a view starts on a character that passes a test. *)
Definition starts_with (p : ascii -> bool) (l : string_view) : bool :=
  match l with
  | c :: _ => p c
  | [] => false
  end.

(** The value-initialised [Note] of [notes{}]. *)
Definition zero_note : Note := {| ratio := f0_0; duration_ms := 0 |}.

(** The samples one note adds to the PCM: its tone and the gap behind it. *)
Definition note_samples (sampleRate : Z) (n : Note) : nat :=
  Z.to_nat (sample_count (duration_ms n) sampleRate) + Z.to_nat (sampleRate / 1000).

Definition sum_nat (l : list nat) : nat := fold_right Nat.add 0 l.

(** The duration a legacy note ends with: the unit of the last duration
    modifier of its text, one beat when there is none. *)
Definition last_unit_from (acc : float32) (text : string_view) : float32 :=
  fold_left (fun a c => if is_duration_modifier c then duration_unit c else a) text acc.

Definition legacy_note_text (score : string_view) (j : nat) : string_view :=
  take ((Legacy.parse_note score j).1 - j) (drop j score).

(** The cursors at which the body loop starts a note, in the order it
    meets them from cursor [j] on: a note-start character opens a note and
    the scan resumes where that note ends, any other character is stepped
    over.  One unit of fuel per turn, as in [body_loop]. *)
Fixpoint note_starts (fuel : nat) (score : string_view) (j : nat) : list nat :=
  match score !! j with
  | Some c =>
      match fuel with
      | O => []
      | S fuel' =>
          if is_note_start c then j :: note_starts fuel' score (parse_note score j).1
          else note_starts fuel' score (S j)
      end
  | None => []
  end.

(** The note starts of a whole score, from the end of its header. *)
Definition note_positions (score : string_view) : list nat :=
  let i0 := (parse_header score).2 in
  note_starts (length score - i0) score i0.

(** The duration the Duration Resolver gives the note starting at [j], in
    [float]: the truncated product of the beat length and the beat total of
    the duration units of the note's text. *)
Definition note_duration (score : string_view) (j : nat) : Z :=
  to_uint32 (mul (ms_per_beat_of (parse_header score).1)
                 (beats (duration_units (note_text score j)))).

(** Whether a float is a positive number within the relative distance
    [2^-18] of [2^(t/12)]; compared through the twelfth powers, over the
    rationals. *)
Definition near_twelfth_root (f : float32) (t : Z) : bool :=
  match to_Q f with
  | Some r =>
      negb (Qle_bool r 0) &&
      Qle_bool ((1 - (1 # 262144)) ^ 12 * (2 # 1) ^ t) (r ^ 12) &&
      Qle_bool (r ^ 12) ((1 + (1 # 262144)) ^ 12 * (2 # 1) ^ t)
  | None => false
  end%Q.

(** ** Characters *)

Ltac char_cases c :=
  destruct c as [[] [] [] [] [] [] [] []]; vm_compute; try reflexivity; try discriminate.

Lemma scale_digit_ends_run (c : ascii) (l : NoteLocals) :
  is_scale_digit c = true -> switch_mod c l = None.
Proof.
  unfold switch_mod. destruct (parsing_duration l); revert c; intros c;
    char_cases c.
Qed.

Lemma scale_digit_is_decimal (c : ascii) :
  is_scale_digit c = true -> is_decimal_digit c = true.
Proof. char_cases c. Qed.

Lemma decimal_digit_not_close (c : ascii) :
  is_decimal_digit c = true -> Ascii.eqb c ")" = false.
Proof. char_cases c. Qed.

Lemma backtick_not_scale_digit (c : ascii) :
  Ascii.eqb c "`" = true -> is_scale_digit c = false.
Proof. char_cases c. Qed.

Lemma switch_consumes_no_digit (c : ascii) (l l' : NoteLocals) :
  switch_mod c l = Some l' -> is_scale_digit c = false.
Proof.
  intros H. destruct (is_scale_digit c) eqn:E; [|reflexivity].
  rewrite (scale_digit_ends_run c l E) in H. discriminate.
Qed.

(** ** Cursor arithmetic on views *)

Lemma lookup_drop_head (score : string_view) (k : nat) (c : ascii) :
  score !! k = Some c -> drop k score = c :: drop (S k) score.
Proof. intros H. by apply drop_S. Qed.

Lemma lookup_None_drop (score : string_view) (k : nat) :
  score !! k = None -> drop k score = [].
Proof. intros H. apply drop_ge. by apply lookup_ge_None. Qed.

Lemma drop_cons_inv (score : string_view) (n : nat) (c : ascii) (r : string_view) :
  drop n score = c :: r -> score !! n = Some c /\ drop (S n) score = r.
Proof.
  intros H. assert (score !! n = Some c) as Hn.
  { pose proof (lookup_drop score n 0) as Hl. rewrite H, Nat.add_0_r in Hl.
    symmetry. exact Hl. }
  split; [done|]. rewrite (lookup_drop_head _ _ _ Hn) in H. congruence.
Qed.

(** ** The counting pass *)

Lemma scan_body_acc (rest : string_view) (count : nat) :
  scan_body rest count = count + scan_body rest 0.
Proof.
  revert count. induction rest as [|c rest IH]; intros count; simpl; [lia|].
  destruct (is_scale_digit c).
  - rewrite (IH (S count)), (IH 1). lia.
  - apply IH.
Qed.

Lemma scan_body_cons (c : ascii) (rest : string_view) :
  scan_body (c :: rest) 0 =
  (if is_scale_digit c then 1 else 0) + scan_body rest 0.
Proof. simpl. destruct (is_scale_digit c); [apply scan_body_acc | reflexivity]. Qed.

(** Reading from further right never finds more digits. *)
Lemma scan_body_drop_mono (score : string_view) (a b : nat) :
  a <= b -> scan_body (drop b score) 0 <= scan_body (drop a score) 0.
Proof.
  intros Hab. replace b with (a + (b - a)) by lia. rewrite <- drop_drop.
  generalize (drop a score) as rest. generalize (b - a) as n. clear.
  induction n as [|n IH]; intros rest; [by rewrite drop_0|].
  destruct rest as [|c rest]; [done|]. rewrite scan_body_cons. simpl.
  specialize (IH rest). lia.
Qed.

Lemma skip_to_close_bounds (rest : string_view) (k : nat) :
  k <= skip_to_close rest k <= k + length rest.
Proof.
  revert k. induction rest as [|c rest IH]; intros k; simpl; [lia|].
  destruct (Ascii.eqb c ")"); [lia|]. specialize (IH (S k)). lia.
Qed.

Lemma skip_header_ge (fuel : nat) (score : string_view) (k : nat) :
  k <= skip_header fuel score k.
Proof.
  revert k. induction fuel as [|fuel IH]; intros k; simpl; [lia|].
  destruct (score !! k) as [c|]; [|lia].
  destruct (Ascii.eqb c "("); [|lia].
  pose proof (skip_to_close_bounds (drop k score) k).
  specialize (IH (S (skip_to_close (drop k score) k))). lia.
Qed.

(** The header loop stops by its own test: more fuel changes nothing. *)
Lemma skip_header_fuel (fuel1 fuel2 : nat) (score : string_view) (k : nat) :
  length score - k <= fuel1 -> length score - k <= fuel2 ->
  skip_header fuel1 score k = skip_header fuel2 score k.
Proof.
  revert fuel2 k. induction fuel1 as [|fuel1 IH]; intros fuel2 k H1 H2.
  - assert (score !! k = None) as Hk by (apply lookup_ge_None; lia).
    destruct fuel2; simpl; [done|]. by rewrite Hk.
  - destruct (score !! k) as [c|] eqn:Hk.
    + apply lookup_lt_Some in Hk as Hlt.
      destruct fuel2 as [|fuel2]; [lia|]. simpl. rewrite Hk.
      destruct (Ascii.eqb c "("); [|done].
      pose proof (skip_to_close_bounds (drop k score) k).
      apply IH; lia.
    + destruct fuel2; simpl; by rewrite Hk.
Qed.

Lemma parse_int_loop_le_close (rest : string_view) (val : Z) (idx : nat) :
  idx <= snd (parse_int_loop rest val idx) <= skip_to_close rest idx.
Proof.
  revert val idx. induction rest as [|c rest IH]; intros val idx; simpl; [lia|].
  destruct (is_decimal_digit c) eqn:Hd.
  - rewrite (decimal_digit_not_close c Hd).
    specialize (IH (int_wrap (val * 10 + (code c - code "0"))) (S idx)). lia.
  - simpl. destruct (Ascii.eqb c ")"); [lia|].
    pose proof (skip_to_close_bounds rest (S idx)). lia.
Qed.

(** The body read by [count_notes] starts no earlier than the body read by
    [parse]. *)
Lemma header_cursor_le_skip (score : string_view) :
  snd (parse_header score) <= skip_header (length score) score 0.
Proof.
  unfold parse_header.
  destruct (score !! 0) as [c|] eqn:H0; [|simpl; lia].
  destruct (Ascii.eqb c "(") eqn:Hc; [|simpl; lia].
  apply lookup_lt_Some in H0 as Hlen.
  destruct (length score) as [|n] eqn:Hn; [lia|]. simpl. rewrite H0, Hc.
  rewrite drop_0.
  destruct score as [|c0 score]; [done|]. simpl in H0. simplify_eq.
  unfold parse_int. simpl drop. rewrite drop_0.
  pose proof (parse_int_loop_le_close score 0%Z 1) as Hp.
  destruct (parse_int_loop score 0%Z 1) as [val k] eqn:Hpi. simpl in Hp.
  assert (Ascii.eqb c ")" = false) as Hnc by (revert Hc; clear; char_cases c).
  simpl skip_to_close. rewrite Hnc.
  pose proof (skip_header_ge n (c :: score) (S (skip_to_close score 1))) as Hge.
  repeat case_match; simpl; lia.
Qed.

(** ** One note *)

(** The modifier run moves the cursor forward inside the view and passes
    over no scale digit. *)
Lemma modifier_loop_bounds (rest : string_view) (k : nat) (l : NoteLocals) :
  k <= (modifier_loop rest k l).1 <= k + length rest /\
  scan_body (drop ((modifier_loop rest k l).1 - k) rest) 0 = scan_body rest 0.
Proof.
  revert k l. induction rest as [|c rest IH]; intros k l; simpl.
  - split; [lia|]. by rewrite drop_nil.
  - destruct (switch_mod c l) as [l'|] eqn:Hsw; simpl.
    + destruct (IH (S k) l') as [Hb Hs].
      split; [lia|].
      replace ((modifier_loop rest (S k) l').1 - k)
        with (S ((modifier_loop rest (S k) l').1 - S k)) by lia.
      simpl. rewrite Hs, (switch_consumes_no_digit c l l' Hsw). done.
    + split; [lia|]. by rewrite Nat.sub_diag.
Qed.

Lemma modifier_loop_drop (score : string_view) (j : nat) (l : NoteLocals) :
  j <= length score ->
  j <= (modifier_loop (drop j score) j l).1 <= length score /\
  scan_body (drop (modifier_loop (drop j score) j l).1 score) 0
  = scan_body (drop j score) 0.
Proof.
  intros Hj. destruct (modifier_loop_bounds (drop j score) j l) as [Hb Hs].
  rewrite length_drop in Hb. rewrite drop_drop in Hs.
  replace (j + ((modifier_loop (drop j score) j l).1 - j))
    with (modifier_loop (drop j score) j l).1 in Hs by lia.
  split; [lia | done].
Qed.

(** A note consumes at least one character and at most one scale digit. *)
Lemma parse_note_advance (score : string_view) (k : nat) (c : ascii) :
  score !! k = Some c -> is_note_start c = true ->
  k < (parse_note score k).1 <= length score /\
  scan_body (drop k score) 0 <= 1 + scan_body (drop (parse_note score k).1 score) 0.
Proof.
  intros Hk Hstart. unfold parse_note. rewrite Hk.
  apply lookup_lt_Some in Hk as Hlt.
  rewrite (lookup_drop_head score k c Hk), scan_body_cons.
  destruct (Ascii.eqb c "`") eqn:Hbt.
  - (* octave-down prefix consumed *)
    rewrite (backtick_not_scale_digit c Hbt).
    destruct (score !! S k) as [d|] eqn:Hd.
    + apply lookup_lt_Some in Hd as Hlt'.
      destruct (is_scale_digit d) eqn:Hdig.
      * match goal with |- context [modifier_loop _ _ ?l] =>
          destruct (modifier_loop_drop score (S (S k)) l) as [Hb Hs]; [lia|] end.
        rewrite (lookup_drop_head score (S k) d Hd), scan_body_cons, Hdig.
        split; [lia|]. rewrite Hs. lia.
      * match goal with |- context [modifier_loop _ _ ?l] =>
          destruct (modifier_loop_drop score (S k) l) as [Hb Hs]; [lia|] end.
        split; [lia|]. rewrite Hs. lia.
    + match goal with |- context [modifier_loop _ _ ?l] =>
        destruct (modifier_loop_drop score (S k) l) as [Hb Hs]; [lia|] end.
      split; [lia|]. rewrite Hs. lia.
  - (* the note starts on its digit *)
    assert (is_scale_digit c = true) as Hdig.
    { unfold is_note_start in Hstart. rewrite Hbt, orb_false_r in Hstart. done. }
    rewrite Hk, Hdig.
    match goal with |- context [modifier_loop _ _ ?l] =>
      destruct (modifier_loop_drop score (S k) l) as [Hb Hs]; [lia|] end.
    split; [lia|]. rewrite Hs. lia.
Qed.

(** ** The body loop *)

(** The loop returns: it neither runs out of fuel nor stores outside the
    array.  It leaves by its own test, and it has written a note for every
    scale digit met, up to the capacity. *)
Lemma body_loop_returns (fuel N : nat) (score : string_view) (mpb : float32)
    (st : Locals) :
  length score - i st <= fuel -> note_idx st <= N -> length (notes st) = N ->
  exists st',
    body_loop fuel N score mpb st = Returned st' /\
    length (notes st') = N /\
    note_idx st <= note_idx st' <= N /\
    i st <= i st' /\
    (note_idx st' < N -> length score <= i st') /\
    note_idx st' + i st <= i st' + note_idx st /\
    Nat.min N (note_idx st + scan_body (drop (i st) score) 0) <= note_idx st'.
Proof.
  revert st. induction fuel as [|fuel IH]; intros [ns k pos] Hfuel Hidx Hlen;
    simpl in *.
  - assert (score !! pos = None) as Hk by (apply lookup_ge_None; lia).
    rewrite Hk. eexists. split; [done|]. simpl.
    rewrite (lookup_None_drop score pos Hk). simpl.
    apply lookup_ge_None in Hk. repeat split; lia.
  - destruct (score !! pos) as [c|] eqn:Hk.
    2:{ eexists. split; [done|]. simpl.
        rewrite (lookup_None_drop score pos Hk). simpl.
        apply lookup_ge_None in Hk. repeat split; lia. }
    destruct (k <? N) eqn:Hcap.
    2:{ apply Nat.ltb_ge in Hcap. eexists. split; [done|]. simpl.
        repeat split; lia. }
    apply Nat.ltb_lt in Hcap. apply lookup_lt_Some in Hk as Hlt.
    destruct (is_note_start c) eqn:Hstart.
    + destruct (parse_note_advance score pos c Hk Hstart) as [Hadv Hdig].
      destruct (parse_note score pos) as [pos' l] eqn:Hpn. simpl in *.
      unfold store. assert ((k <? length ns) = true) as -> by (apply Nat.ltb_lt; lia).
      destruct (IH {| notes := <[k:=emit mpb l]> ns; note_idx := S k; i := pos' |})
        as (st' & Hrun & Hlen' & Hidx' & Hpos' & Hexit & Huse & Hcount); simpl.
      * lia.
      * lia.
      * by rewrite length_insert.
      * exists st'. simpl in *. repeat split; try done; lia.
    + destruct (IH {| notes := ns; note_idx := k; i := S pos |})
        as (st' & Hrun & Hlen' & Hidx' & Hpos' & Hexit & Huse & Hcount); simpl;
        [lia | lia | done |].
      exists st'. simpl in *. repeat split; try done; try lia.
      rewrite (lookup_drop_head score pos c Hk), scan_body_cons.
      assert (is_scale_digit c = false) as ->.
      { unfold is_note_start in Hstart. by apply orb_false_elim in Hstart as [? _]. }
      simpl. lia.
Qed.

(** The four ways a turn of the loop can go. *)
Lemma body_loop_exhausted (fuel N : nat) (score : string_view) (mpb : float32)
    (st : Locals) :
  score !! i st = None -> body_loop fuel N score mpb st = Returned st.
Proof. intros H. destruct fuel; simpl; by rewrite H. Qed.

Lemma body_loop_full (fuel N : nat) (score : string_view) (mpb : float32)
    (st : Locals) :
  N <= note_idx st -> body_loop fuel N score mpb st = Returned st.
Proof.
  intros H. apply Nat.ltb_ge in H.
  destruct fuel; simpl; rewrite H; by case_match.
Qed.

Lemma body_loop_skip (fuel N : nat) (score : string_view) (mpb : float32)
    (st : Locals) (c : ascii) :
  score !! i st = Some c -> note_idx st < N -> is_note_start c = false ->
  body_loop (S fuel) N score mpb st =
  body_loop fuel N score mpb
    {| notes := notes st; note_idx := note_idx st; i := S (i st) |}.
Proof.
  intros Hc Hk Hs. apply Nat.ltb_lt in Hk. simpl. by rewrite Hc, Hk, Hs.
Qed.

Lemma body_loop_note (fuel N : nat) (score : string_view) (mpb : float32)
    (st : Locals) (c : ascii) :
  score !! i st = Some c -> note_idx st < N -> is_note_start c = true ->
  note_idx st < length (notes st) ->
  body_loop (S fuel) N score mpb st =
  body_loop fuel N score mpb
    {| notes := <[note_idx st := emit mpb (parse_note score (i st)).2]> (notes st);
       note_idx := S (note_idx st);
       i := (parse_note score (i st)).1 |}.
Proof.
  intros Hc Hk Hs Hlen. apply Nat.ltb_lt in Hk, Hlen. simpl.
  rewrite Hc, Hk, Hs. destruct (parse_note score (i st)) as [pos' l].
  unfold store. by rewrite Hlen.
Qed.

(** Stores go to [note_idx] and above: the notes below it are final. *)
Lemma body_loop_prefix_stable (fuel N : nat) (score : string_view) (mpb : float32)
    (st st' : Locals) :
  body_loop fuel N score mpb st = Returned st' ->
  take (note_idx st) (notes st') = take (note_idx st) (notes st).
Proof.
  revert st. induction fuel as [|fuel IH]; intros [ns k pos]; simpl.
  - repeat case_match; intros; simplify_eq; done.
  - destruct (score !! pos) as [c|]; [|intros; simplify_eq; done].
    destruct (k <? N); [|intros; simplify_eq; done].
    destruct (is_note_start c).
    + destruct (parse_note score pos) as [pos' l].
      unfold store. destruct (k <? length ns); [|done].
      intros Hrun. apply IH in Hrun. simpl in Hrun.
      apply (f_equal (take k)) in Hrun.
      rewrite !take_take, Nat.min_l, take_insert_ge in Hrun by lia. done.
    + intros Hrun. by apply IH in Hrun.
Qed.

(** Two runs that differ in capacity only: the smaller one is the larger
    one cut at its capacity. *)
Lemma body_loop_capacity (fuel N M : nat) (score : string_view) (mpb : float32)
    (stN stM : Locals) :
  N <= M -> length score - i stN <= fuel ->
  i stM = i stN -> note_idx stM = note_idx stN -> note_idx stN <= N ->
  length (notes stN) = N -> length (notes stM) = M ->
  take N (notes stM) = notes stN ->
  exists stN' stM',
    body_loop fuel N score mpb stN = Returned stN' /\
    body_loop fuel M score mpb stM = Returned stM' /\
    take N (notes stM') = notes stN' /\
    ((note_idx stM' = note_idx stN' /\ i stM' = i stN') \/
     (note_idx stN' = N /\ i stN' < length score /\ N <= note_idx stM')).
Proof.
  intros HNM. revert stN stM.
  induction fuel as [|fuel IH];
    intros stN stM Hfuel Hpos Hk Hcap HlenN HlenM Htake.
  - assert (score !! i stN = None) as Hnone by (apply lookup_ge_None; lia).
    exists stN, stM. rewrite !body_loop_exhausted by congruence.
    repeat split; [done|]. by left.
  - destruct (score !! i stN) as [c|] eqn:Hc.
    2:{ exists stN, stM. rewrite !body_loop_exhausted by congruence.
        repeat split; [done|]. by left. }
    apply lookup_lt_Some in Hc as Hlt.
    destruct (decide (note_idx stN < N)) as [HkN|HkN].
    + destruct (is_note_start c) eqn:Hstart.
      * destruct (parse_note_advance score (i stN) c Hc Hstart) as [Hadv _].
        rewrite (body_loop_note fuel N score mpb stN c), (body_loop_note fuel M score mpb stM c)
          by (congruence || lia).
        rewrite Hpos, Hk.
        apply IH; simpl; rewrite ?length_insert; try done; try lia.
        rewrite take_insert_lt by lia. by rewrite Htake.
      * rewrite (body_loop_skip fuel N score mpb stN c), (body_loop_skip fuel M score mpb stM c)
          by (congruence || lia).
        rewrite Hpos, Hk. apply IH; simpl; try done; lia.
    + destruct (body_loop_returns (S fuel) M score mpb stM)
        as (stM' & Hrun & _ & Hidx & _); try done; try lia.
      exists stN, stM'. rewrite body_loop_full by lia.
      repeat split; [done| |].
      * apply body_loop_prefix_stable in Hrun.
        apply (f_equal (take N)) in Hrun.
        rewrite !take_take, Nat.min_l in Hrun by lia. congruence.
      * right. repeat split; lia.
Qed.

(** ** The two passes together *)

(** [parse<N>] returns for every capacity and every score. *)
Lemma parse_returns (N : nat) (score : string_view) :
  exists st,
    parse N score = Returned st /\
    length (notes st) = N /\
    note_idx st <= N /\
    (note_idx st < N -> length score <= i st) /\
    note_idx st + (parse_header score).2 <= i st /\
    Nat.min N (scan_body (drop (parse_header score).2 score) 0) <= note_idx st.
Proof.
  unfold parse. destruct (parse_header score) as [bpm i0]. simpl.
  destruct (body_loop_returns (length score - i0) N score (ms_per_beat_of bpm)
              {| notes := replicate N {| ratio := f0_0; duration_ms := 0 |};
                 note_idx := 0; i := i0 |})
    as (st & Hrun & Hlen & Hidx & Hpos & Hexit & Huse & Hcount); simpl;
    [lia | lia | by rewrite length_replicate |].
  exists st. simpl in *. repeat split; try done; lia.
Qed.

(** With capacity [length score] the loop ends on the end of the input. *)
Lemma full_parse_exhausts (score : string_view) (st : Locals) :
  parse (length score) score = Returned st -> length score <= i st.
Proof.
  intros Hrun.
  destruct (parse_returns (length score) score)
    as (st' & Hrun' & _ & Hidx & Hexit & Huse & _).
  rewrite Hrun in Hrun'. simplify_eq. lia.
Qed.

(** C1.  For every score, the two-pass pipeline [operator""_ems] returns an
    array whose length is the count of [count_notes], and the body loop of
    [parse] has written every one of its slots: the number of notes produced
    equals the Note Counter's count. *)
Theorem count_parse_agreement (score : string_view) :
  exists st,
    ems_literal score = Returned st /\
    note_idx st = count_notes score /\
    length (notes st) = count_notes score.
Proof.
  unfold ems_literal.
  destruct (parse_returns (count_notes score) score)
    as (st & Hrun & Hlen & Hidx & _ & _ & Hcount).
  exists st. repeat split; [done | | done].
  pose proof (scan_body_drop_mono score _ _ (header_cursor_le_skip score)) as Hmono.
  unfold count_notes in *. lia.
Qed.



(** ** The modifier run, character by character *)

Lemma switch_duration (c : ascii) (l : NoteLocals) :
  is_duration_modifier c = true ->
  switch_mod c l = Some (add_duration (duration_unit c) l).
Proof. revert l. char_cases c. Qed.

Lemma switch_pitch (c : ascii) (l : NoteLocals) :
  is_pitch_modifier c = true -> parsing_duration l = false ->
  switch_mod c l =
  Some {| num := num l; oct := (oct l + octave_shift c)%Z;
          semi := (semi l + semitone_shift c)%Z;
          dur_mult := dur_mult l; parsing_duration := false |}.
Proof.
  intros Hc Hl. unfold switch_mod. fold (is_pitch_modifier c). rewrite Hc, Hl.
  unfold octave_shift, semitone_shift.
  destruct (Ascii.eqb c "s") eqn:Hs; [|destruct (Ascii.eqb c "b") eqn:Hb].
  - assert (Ascii.eqb c "`" = false) as -> by (revert Hs; clear; char_cases c).
    by rewrite Z.add_0_r.
  - assert (Ascii.eqb c "`" = false) as -> by (revert Hb; clear; char_cases c).
    rewrite Z.add_0_r. f_equal.
  - assert (Ascii.eqb c "`" = true) as ->.
    { unfold is_pitch_modifier in Hc. by rewrite Hs, Hb in Hc. }
    by rewrite Z.add_0_r.
Qed.

(** In duration phase a pitch modifier ends the run, unconsumed. *)
Lemma switch_pitch_in_duration (c : ascii) (l : NoteLocals) :
  is_pitch_modifier c = true -> parsing_duration l = true ->
  switch_mod c l = None.
Proof.
  intros Hc Hl. unfold switch_mod. fold (is_pitch_modifier c). by rewrite Hc, Hl.
Qed.

Lemma switch_other (c : ascii) (l : NoteLocals) :
  is_pitch_modifier c = false -> is_duration_modifier c = false ->
  switch_mod c l = None.
Proof. revert l. char_cases c. Qed.

Lemma locals_eta (l : NoteLocals) :
  l = {| num := num l; oct := oct l; semi := semi l; dur_mult := dur_mult l;
         parsing_duration := parsing_duration l |}.
Proof. by destruct l. Qed.

(** Before duration phase, a run of pitch modifiers is consumed into the
    note. *)
Lemma modifier_loop_pitch_run (ps rest : string_view) (j : nat) (l : NoteLocals) :
  parsing_duration l = false ->
  Forall (fun c => is_pitch_modifier c = true) ps ->
  modifier_loop (ps ++ rest) j l =
  modifier_loop rest (j + length ps)
    {| num := num l; oct := (oct l + sum_Z octave_shift ps)%Z;
       semi := (semi l + sum_Z semitone_shift ps)%Z;
       dur_mult := dur_mult l; parsing_duration := false |}.
Proof.
  intros Hl Hps. revert j l Hl.
  induction Hps as [|c ps Hc Hps IH]; intros j l Hl; simpl.
  - rewrite Nat.add_0_r, !Z.add_0_r, <- Hl. by rewrite <- locals_eta.
  - rewrite (switch_pitch c l Hc Hl), IH by done. simpl.
    rewrite !Z.add_assoc. do 2 f_equal. lia.
Qed.

(** A run of duration units is consumed and puts the note in duration
    phase. *)
Lemma modifier_loop_duration_run (ds rest : string_view) (j : nat) (l : NoteLocals) :
  Forall (fun c => is_duration_modifier c = true) ds ->
  modifier_loop (ds ++ rest) j l =
  modifier_loop rest (j + length ds)
    {| num := num l; oct := oct l; semi := semi l;
       dur_mult := beats_from (dur_mult l) ds;
       parsing_duration := match ds with [] => parsing_duration l | _ => true end |}.
Proof.
  intros Hds. revert j l.
  induction Hds as [|c ds Hc Hds IH]; intros j l; simpl.
  - by rewrite Nat.add_0_r, <- locals_eta.
  - rewrite (switch_duration c l Hc), IH. simpl.
    replace (S (j + length ds)) with (j + S (length ds)) by lia.
    by destruct ds.
Qed.

Lemma modifier_loop_stop (rest : string_view) (j : nat) (l : NoteLocals) :
  match rest with [] => True | c :: _ => switch_mod c l = None end ->
  modifier_loop rest j l = (j, l).
Proof. destruct rest as [|c rest]; simpl; [done|]. by intros ->. Qed.

(** The whole run of a note: pitch modifiers, then duration units, then
    the end of the run. *)
Lemma modifier_loop_text (ps ds rest : string_view) (j : nat) (l : NoteLocals) :
  parsing_duration l = false ->
  Forall (fun c => is_pitch_modifier c = true) ps ->
  Forall (fun c => is_duration_modifier c = true) ds ->
  run_ends ds rest ->
  modifier_loop (ps ++ ds ++ rest) j l =
  (j + length ps + length ds,
   {| num := num l; oct := (oct l + sum_Z octave_shift ps)%Z;
      semi := (semi l + sum_Z semitone_shift ps)%Z;
      dur_mult := beats_from (dur_mult l) ds;
      parsing_duration := match ds with [] => false | _ => true end |}).
Proof.
  intros Hl Hps Hds Hend.
  rewrite modifier_loop_pitch_run, modifier_loop_duration_run by done. simpl.
  apply modifier_loop_stop.
  destruct rest as [|c rest]; [done|]. destruct Hend as [Hnd Hnp].
  destruct (is_pitch_modifier c) eqn:Hp.
  - destruct ds as [|d ds]; [by specialize (Hnp eq_refl)|].
    by apply switch_pitch_in_duration.
  - by apply switch_other.
Qed.

(** A note read from its text. *)
Lemma parse_note_text (score : string_view) (j : nat) (down : bool) (d : ascii)
    (ps ds rest : string_view) :
  drop j score = (if down then ["`"%char] else []) ++ d :: ps ++ ds ++ rest ->
  is_scale_digit d = true ->
  Forall (fun c => is_pitch_modifier c = true) ps ->
  Forall (fun c => is_duration_modifier c = true) ds ->
  run_ends ds rest ->
  parse_note score j =
  (j + (if down then 1 else 0) + 1 + length ps + length ds, note_of down d ps ds).
Proof.
  intros Hdrop Hd Hps Hds Hend. unfold parse_note, note_of, beats.
  pose proof (drop_cons_inv score) as Hstep.
  destruct down; simpl in Hdrop.
  - apply Hstep in Hdrop as [-> Hdrop]. simpl.
    apply Hstep in Hdrop as [-> Hdrop]. rewrite Hd, Hdrop.
    rewrite modifier_loop_text by done. simpl. do 2 f_equal. lia.
  - apply Hstep in Hdrop as [Hj Hdrop]. rewrite Hj.
    assert (Ascii.eqb d "`" = false) as ->.
    { destruct (Ascii.eqb d "`") eqn:E; [|done].
      apply backtick_not_scale_digit in E. congruence. }
    rewrite Hj, Hd, Hdrop.
    rewrite modifier_loop_text by done. simpl. do 2 f_equal. lia.
Qed.

(** ** Two adjacent notes *)

Lemma scale_digit_not_open (c : ascii) :
  is_scale_digit c = true -> Ascii.eqb c "(" = false.
Proof. char_cases c. Qed.

Lemma pitch_not_duration (c : ascii) :
  is_pitch_modifier c = true -> is_duration_modifier c = false.
Proof. char_cases c. Qed.

Lemma accidental_not_note_start (c : ascii) :
  is_pitch_modifier c = true -> Ascii.eqb c "`" = false -> is_note_start c = false.
Proof. char_cases c. Qed.

Lemma backtick_eq (c : ascii) : Ascii.eqb c "`" = true -> c = "`"%char.
Proof. apply Ascii.eqb_eq. Qed.

(** A score that starts on a scale digit has no header. *)
Lemma parse_header_digit (d : ascii) (rest : string_view) :
  is_scale_digit d = true -> parse_header (d :: rest) = (f120_0, 0).
Proof. intros Hd. unfold parse_header. simpl. by rewrite scale_digit_not_open. Qed.

(** C2, as the code has it.  Two adjacent notes, the first ending its
    modifier run in at least one duration unit and followed at once by a
    pitch-modifier character [c]: [c] is not consumed by the first note,
    whose octave and accidentals come from the pitch modifiers before its
    duration units only.  When [c] is the backtick it becomes the
    octave-down prefix of the second note; when [c] is an accidental letter
    the body loop skips it and the second note is not lowered. *)
Theorem ambiguity_boundary (d1 d2 c : ascii) (ps1 ds1 ps2 ds2 tail : string_view) :
  is_scale_digit d1 = true -> is_scale_digit d2 = true ->
  Forall (fun x => is_pitch_modifier x = true) ps1 ->
  Forall (fun x => is_duration_modifier x = true) ds1 -> ds1 <> [] ->
  is_pitch_modifier c = true ->
  Forall (fun x => is_pitch_modifier x = true) ps2 ->
  Forall (fun x => is_duration_modifier x = true) ds2 ->
  run_ends ds2 tail ->
  parse 2 (d1 :: ps1 ++ ds1 ++ c :: d2 :: ps2 ++ ds2 ++ tail) =
  Returned
    {| notes := [emit default_ms_per_beat (note_of false d1 ps1 ds1);
                 emit default_ms_per_beat (note_of (Ascii.eqb c "`") d2 ps2 ds2)];
       note_idx := 2;
       i := 3 + length ps1 + length ds1 + length ps2 + length ds2 |}.
Proof.
  intros Hd1 Hd2 Hps1 Hds1 Hne Hc Hps2 Hds2 Hend.
  set (second := c :: d2 :: ps2 ++ ds2 ++ tail).
  set (score := d1 :: ps1 ++ ds1 ++ second).
  set (p := 1 + length ps1 + length ds1).
  assert (drop p score = second) as Hp.
  { unfold score, p. change (d1 :: ps1 ++ ds1 ++ second) with ([d1] ++ ps1 ++ ds1 ++ second).
    rewrite !app_assoc.
    replace (1 + length ps1 + length ds1) with (length (([d1] ++ ps1) ++ ds1))
      by (rewrite !length_app; simpl; lia).
    apply drop_app_length. }
  (* the first note *)
  assert (parse_note score 0 = (p, note_of false d1 ps1 ds1)) as Hn1.
  { rewrite (parse_note_text score 0 false d1 ps1 ds1 second); try done.
    split; [by apply pitch_not_duration | done]. }
  unfold parse. unfold score at 1. rewrite parse_header_digit by done. fold score.
  fold default_ms_per_beat. rewrite Nat.sub_0_r.
  assert (exists fuel, length score = S (S (S fuel))) as [fuel ->].
  { exists (length ps1 + length ds1 + length ps2 + length ds2 + length tail).
    unfold score, second. simpl. rewrite !length_app. simpl.
    rewrite !length_app. lia. }
  assert (is_note_start d1 = true) as Hs1 by (unfold is_note_start; by rewrite Hd1).
  assert (is_note_start d2 = true) as Hs2 by (unfold is_note_start; by rewrite Hd2).
  rewrite (body_loop_note _ 2 score _ _ d1) by (simpl; done || lia).
  cbn [notes note_idx i]. rewrite Hn1. cbn [fst snd].
  destruct (drop_cons_inv score p c _ Hp) as [Hpc Hp'].
  destruct (Ascii.eqb c "`") eqn:Hbt.
  - (* the backtick starts the second note *)
    apply backtick_eq in Hbt as ->.
    rewrite (body_loop_note _ 2 score _ _ "`"%char) by (simpl; done || lia).
    cbn [notes note_idx i].
    rewrite (parse_note_text score p true d2 ps2 ds2 tail) by done.
    rewrite body_loop_full by (simpl; lia).
    cbn [fst snd]. simpl. do 2 f_equal. unfold p. lia.
  - (* an accidental letter is skipped by the body loop *)
    rewrite (body_loop_skip _ 2 score _ _ c)
      by (simpl; done || lia || by apply accidental_not_note_start).
    cbn [notes note_idx i].
    destruct (drop_cons_inv score (S p) d2 _ Hp') as [Hpd _].
    rewrite (body_loop_note _ 2 score _ _ d2) by (simpl; done || lia).
    cbn [notes note_idx i].
    rewrite (parse_note_text score (S p) false d2 ps2 ds2 tail) by done.
    rewrite body_loop_full by (simpl; lia).
    cbn [fst snd]. simpl. do 2 f_equal. unfold p. lia.
Qed.

Lemma ambiguity_boundary_witness :
  parse 2 (sv "1,`2,") =
  Returned
    {| notes := [emit default_ms_per_beat (note_of false "1" [] (sv ","));
                 emit default_ms_per_beat (note_of true "2" [] (sv ","))];
       note_idx := 2;
       i := 5 |}.
Proof.
  apply (ambiguity_boundary "1" "2" "`" [] (sv ",") [] (sv ",") []);
    try reflexivity; try (repeat constructor); try discriminate.
Defined.

(** C2 as worded fails on an accidental letter: in ["1,s2,"] the [s] that
    follows the duration unit is not consumed by the first note, but it is
    not made the octave-down prefix of the second note either; the second
    note keeps octave 0. *)
Lemma ambiguity_accidental_counterexample :
  exists st n,
    parse 2 (sv "1,s2,") = Returned st /\
    (parse_note (sv "1,s2,") 0).1 = 2 /\
    sv "1,s2," !! 2 = Some "s"%char /\
    notes st !! 1 = Some n /\
    ratio n = calculate_ratio 2 0 0 /\
    ratio n <> calculate_ratio 2 (-1) 0.
Proof.
  eexists _, _. split; [vm_compute; reflexivity|].
  repeat split; vm_compute; congruence.
Qed.

(** ** Durations *)

Lemma switch_dur_mult (c : ascii) (l l' : NoteLocals) :
  switch_mod c l = Some l' ->
  dur_mult l' =
  if is_duration_modifier c then add (dur_mult l) (duration_unit c) else dur_mult l.
Proof.
  intros H. destruct (is_duration_modifier c) eqn:Hd.
  - rewrite switch_duration in H by done. by simplify_eq.
  - destruct (is_pitch_modifier c) eqn:Hp.
    + destruct (parsing_duration l) eqn:Hl.
      * rewrite switch_pitch_in_duration in H by done. done.
      * rewrite switch_pitch in H by done. by simplify_eq.
    + rewrite switch_other in H by done. done.
Qed.

(** The beat total of a run is the float sum of the duration units it
    consumed, in order. *)
Lemma modifier_loop_beats (rest : string_view) (j : nat) (l : NoteLocals) :
  dur_mult (modifier_loop rest j l).2 =
  beats_from (dur_mult l)
    (duration_units (take ((modifier_loop rest j l).1 - j) rest)).
Proof.
  revert j l. induction rest as [|c rest IH]; intros j l; simpl;
    [by rewrite take_nil|].
  destruct (switch_mod c l) as [l'|] eqn:Hsw; simpl.
  - pose proof (modifier_loop_bounds rest (S j) l') as [Hb _].
    replace ((modifier_loop rest (S j) l').1 - j)
      with (S ((modifier_loop rest (S j) l').1 - S j)) by lia.
    rewrite IH, (switch_dur_mult c l l' Hsw). simpl.
    unfold duration_units. simpl. by destruct (is_duration_modifier c).
  - by rewrite Nat.sub_diag.
Qed.

Lemma note_start_not_duration (c : ascii) :
  is_note_start c = true -> is_duration_modifier c = false.
Proof. char_cases c. Qed.

Lemma scale_digit_not_duration (c : ascii) :
  is_scale_digit c = true -> is_duration_modifier c = false.
Proof. char_cases c. Qed.

(** The same for a whole note: prefix and digit are no duration units. *)
Lemma parse_note_beats (score : string_view) (j : nat) (c : ascii) :
  score !! j = Some c -> is_note_start c = true ->
  dur_mult (parse_note score j).2 = beats (duration_units (note_text score j)).
Proof.
  intros Hj Hstart. unfold note_text.
  pose proof (parse_note_advance score j c Hj Hstart) as [Hadv _].
  revert Hadv. unfold parse_note. rewrite Hj.
  rewrite (lookup_drop_head score j c Hj).
  pose proof (note_start_not_duration c Hstart) as Hnd.
  assert (forall j2 l2 (pre : string_view),
    drop j score = pre ++ drop j2 score -> j2 = j + length pre ->
    duration_units pre = [] -> dur_mult l2 = f0_0 ->
    j < (modifier_loop (drop j2 score) j2 l2).1 <= length score ->
    dur_mult (modifier_loop (drop j2 score) j2 l2).2 =
    beats (duration_units
             (take ((modifier_loop (drop j2 score) j2 l2).1 - j) (drop j score)))) as Hgen.
  { intros j2 l2 pre Hsplit -> Hpre Hl2 Hadv.
    pose proof (modifier_loop_bounds (drop (j + length pre) score) (j + length pre) l2) as [Hb _].
    rewrite modifier_loop_beats, Hl2, Hsplit.
    replace ((modifier_loop (drop (j + length pre) score) (j + length pre) l2).1 - j)
      with (length pre +
            ((modifier_loop (drop (j + length pre) score) (j + length pre) l2).1
             - (j + length pre))) by lia.
    rewrite take_app_add. unfold duration_units in *.
    rewrite List.filter_app, Hpre. done. }
  rewrite <- (lookup_drop_head score j c Hj).
  destruct (Ascii.eqb c "`") eqn:Hbt.
  - destruct (score !! S j) as [d|] eqn:Hd.
    + destruct (is_scale_digit d) eqn:Hdig; intros Hadv.
      * apply (Hgen _ _ [c; d]); try done; try (simpl; lia).
        -- by rewrite (lookup_drop_head score j c Hj), (lookup_drop_head score (S j) d Hd).
        -- unfold duration_units. simpl.
           by rewrite Hnd, (scale_digit_not_duration d Hdig).
      * apply (Hgen _ _ [c]); try done; try (simpl; lia).
        -- by rewrite (lookup_drop_head score j c Hj).
        -- unfold duration_units. simpl. by rewrite Hnd.
    + intros Hadv. apply (Hgen _ _ [c]); try done; try (simpl; lia).
      * by rewrite (lookup_drop_head score j c Hj).
      * unfold duration_units. simpl. by rewrite Hnd.
  - assert (is_scale_digit c = true) as Hdig.
    { unfold is_note_start in Hstart. by rewrite Hbt, orb_false_r in Hstart. }
    rewrite Hj, Hdig. intros Hadv.
    apply (Hgen _ _ [c]); try done; try (simpl; lia).
    + by rewrite (lookup_drop_head score j c Hj).
    + unfold duration_units. simpl. by rewrite Hnd.
Qed.

(** Every note the loop has written was emitted from a note start. *)
Lemma body_loop_written (P : Note -> Prop) (fuel N : nat) (score : string_view)
    (mpb : float32) (st st' : Locals) :
  (forall j c, score !! j = Some c -> is_note_start c = true ->
     P (emit mpb (parse_note score j).2)) ->
  (forall k n, k < note_idx st -> notes st !! k = Some n -> P n) ->
  body_loop fuel N score mpb st = Returned st' ->
  forall k n, k < note_idx st' -> notes st' !! k = Some n -> P n.
Proof.
  intros Hemit. revert st.
  induction fuel as [|fuel IH]; intros [ns k0 pos] Hinit; simpl in *.
  - repeat case_match; intros; simplify_eq; eauto.
  - destruct (score !! pos) as [c|] eqn:Hc; [|intros; simplify_eq; eauto].
    destruct (k0 <? N); [|intros; simplify_eq; eauto].
    destruct (is_note_start c) eqn:Hstart.
    + pose proof (Hemit pos c Hc Hstart) as Hnew.
      destruct (parse_note score pos) as [pos' l]. simpl in Hnew.
      unfold store. destruct (k0 <? length ns) eqn:Hlen; [|done].
      apply Nat.ltb_lt in Hlen.
      apply IH. simpl. intros k n Hk Hn.
      destruct (decide (k = k0)) as [->|Hne].
      * rewrite list_lookup_insert_eq in Hn by done. by simplify_eq.
      * rewrite list_lookup_insert_ne in Hn by done. apply (Hinit k n); [lia | done].
    + apply IH. done.
Qed.

Lemma mul_zero_finite (f : float32) :
  is_finite f = true -> to_uint32 (mul f f0_0) = 0%Z.
Proof. destruct f as [s|s| |s m e]; simpl; intros H; try done. Qed.

(** Every cursor of [note_starts] holds a note-start character. *)
Lemma note_starts_sound (fuel : nat) (score : string_view) (j : nat) :
  Forall (fun p => exists c, score !! p = Some c /\ is_note_start c = true)
         (note_starts fuel score j).
Proof.
  revert j. induction fuel as [|fuel IH]; intros j; simpl.
  - destruct (score !! j); constructor.
  - destruct (score !! j) as [c|] eqn:Hc; [|constructor].
    destruct (is_note_start c) eqn:Hstart; [|apply IH].
    constructor; [by exists c | apply IH].
Qed.

(** The notes the body loop writes are the events of the note starts it
    meets, slot by slot, up to the capacity. *)
Lemma body_loop_notes (fuel N : nat) (score : string_view) (mpb : float32)
    (st st' : Locals) :
  length (notes st) = N -> note_idx st <= N ->
  body_loop fuel N score mpb st = Returned st' ->
  note_idx st' =
    note_idx st + length (take (N - note_idx st) (note_starts fuel score (i st))) /\
  take (note_idx st') (notes st') =
    take (note_idx st) (notes st) ++
    ((fun j => emit mpb (parse_note score j).2)
       <$> take (N - note_idx st) (note_starts fuel score (i st))).
Proof.
  revert st. induction fuel as [|fuel IH]; intros [ns k0 pos];
    cbn [notes note_idx i]; intros Hlen Hk0; simpl.
  - destruct (score !! pos) as [c|]; [destruct (k0 <? N) eqn:Hlt|];
      intros [= <-]; cbn [notes note_idx i];
      rewrite take_nil; simpl; rewrite app_nil_r; split; (lia || done).
  - destruct (score !! pos) as [c|] eqn:Hc.
    2:{ intros [= <-]; cbn [notes note_idx i].
        rewrite take_nil; simpl; rewrite app_nil_r; split; (lia || done). }
    destruct (k0 <? N) eqn:Hlt.
    2:{ intros [= <-]; cbn [notes note_idx i].
        apply Nat.ltb_ge in Hlt. replace (N - k0) with 0 by lia.
        rewrite take_0; simpl; rewrite app_nil_r; split; (lia || done). }
    apply Nat.ltb_lt in Hlt.
    destruct (is_note_start c) eqn:Hstart.
    + destruct (parse_note score pos) as [pos' l] eqn:Hnote.
      unfold store. destruct (k0 <? length ns) eqn:Hin; [|done].
      apply Nat.ltb_lt in Hin. intros Hrun.
      apply IH in Hrun; cbn [notes note_idx i] in *;
        [|by rewrite length_insert | lia].
      destruct Hrun as [Hidx Hnotes].
      replace (N - k0) with (S (N - S k0)) by lia.
      cbn [take length fmap list_fmap fst snd].
      split; [lia|].
      rewrite Hnotes.
      rewrite (take_S_r (<[k0:=emit mpb l]> ns) k0 (emit mpb l))
        by (by apply list_lookup_insert_eq).
      rewrite take_insert_ge by lia.
      rewrite Hnote. cbn [snd]. by rewrite <- app_assoc.
    + intros Hrun. apply IH in Hrun; cbn [notes note_idx i] in *; done.
Qed.

(** The notes of [parse]: as many as the capacity and the note starts of
    the score allow, the [k]-th being the event of the [k]-th note start. *)
Lemma parse_notes (N : nat) (score : string_view) :
  exists st,
    parse N score = Returned st /\
    note_idx st = length (take N (note_positions score)) /\
    take (note_idx st) (notes st) =
    (fun j => emit (ms_per_beat_of (parse_header score).1) (parse_note score j).2)
      <$> take N (note_positions score).
Proof.
  destruct (parse_returns N score) as (st & Hrun & _).
  exists st. split; [done|].
  unfold parse, note_positions in *.
  destruct (parse_header score) as [bpm i0]. cbn [fst snd] in *.
  apply body_loop_notes in Hrun; cbn [notes note_idx i] in *;
    [|by rewrite length_replicate | lia].
  rewrite Nat.sub_0_r, take_0 in Hrun. simpl in Hrun. done.
Qed.

(** The duration of the event of a note start is the resolver's. *)
Lemma emit_duration (score : string_view) (j : nat) (c : ascii) :
  score !! j = Some c -> is_note_start c = true ->
  duration_ms (emit (ms_per_beat_of (parse_header score).1) (parse_note score j).2) =
  note_duration score j.
Proof.
  intros Hj Hstart. unfold note_duration. simpl.
  by rewrite (parse_note_beats score j c Hj Hstart).
Qed.

Lemma parse_durations (N : nat) (score : string_view) :
  exists st,
    parse N score = Returned st /\
    note_idx st = length (take N (note_positions score)) /\
    duration_ms <$> take (note_idx st) (notes st) =
    note_duration score <$> take N (note_positions score).
Proof.
  destruct (parse_notes N score) as (st & Hrun & Hidx & Hnotes).
  exists st. split; [done|]. split; [done|].
  rewrite Hnotes, <- list_fmap_compose.
  apply Forall_fmap_ext_1, Forall_take.
  unfold note_positions.
  eapply Forall_impl; [apply note_starts_sound|].
  intros j (c & Hj & Hstart). simpl. by apply (emit_duration score j c).
Qed.

(** C5, as the code computes it.  [parse] writes one note per note start
    of the score, in order, up to its capacity; the [k]-th written note has
    [duration_ms] equal to the truncation of the binary32 product of
    [ms_per_beat = 60000.0f / tempo] and the beat total of the [k]-th
    note's own text, the total being the binary32 sum, left to right from
    0, of the units of the duration modifiers in that text (1.0, 0.5, 0.25,
    2.0).  Each such position holds a note-start character.  A written note
    whose text has no duration modifier has, for a finite [ms_per_beat],
    duration 0.  At tempo 120 a note followed by [,] then [-] lasts 750;
    of two notes with two beats and a quarter beat, starting at the cursors
    5 and 8, the first lasts 1000 and the second 250. *)
Theorem duration_resolution :
  (forall (N : nat) (score : string_view),
     exists st,
       parse N score = Returned st /\
       note_idx st = length (take N (note_positions score)) /\
       duration_ms <$> take (note_idx st) (notes st) =
       (fun j => to_uint32 (mul (ms_per_beat_of (parse_header score).1)
                                (beats (duration_units (note_text score j)))))
         <$> take N (note_positions score)) /\
  (forall (score : string_view) (k j : nat),
     note_positions score !! k = Some j ->
     exists c, score !! j = Some c /\ is_note_start c = true) /\
  (forall (N : nat) (score : string_view) (st : Locals) (k j : nat),
     parse N score = Returned st ->
     take N (note_positions score) !! k = Some j ->
     duration_units (note_text score j) = [] ->
     is_finite (ms_per_beat_of (parse_header score).1) = true ->
     (duration_ms <$> notes st) !! k = Some 0%Z) /\
  default_ms_per_beat = of_int 500 /\
  (exists st, parse 1 (sv "1,-") = Returned st /\
     duration_ms <$> notes st = [750%Z]) /\
  (exists st, parse 1 (sv "(120)1,-") = Returned st /\
     duration_ms <$> notes st = [750%Z]) /\
  (note_positions (sv "(120)1,,2`-") = [5; 8] /\
   exists st, parse 2 (sv "(120)1,,2`-") = Returned st /\
     duration_ms <$> notes st = [1000%Z; 250%Z]).
Proof.
  split; [|split; [|split; [|split; [|split; [|split]]]]].
  - intros N score. apply parse_durations.
  - intros score k j Hk.
    pose proof (note_starts_sound (length score - (parse_header score).2) score
                  (parse_header score).2) as Hall.
    rewrite Forall_lookup in Hall. by apply (Hall k j).
  - intros N score st k j Hrun Hk Hnone Hfin.
    destruct (parse_durations N score) as (st' & Hrun' & Hidx & Hdur).
    rewrite Hrun in Hrun'. injection Hrun' as <-.
    assert (k < note_idx st) as Hlt.
    { rewrite Hidx. by apply lookup_lt_Some in Hk. }
    assert ((duration_ms <$> take (note_idx st) (notes st)) !! k = Some 0%Z) as H0.
    { rewrite Hdur, list_lookup_fmap, Hk. simpl. f_equal.
      unfold note_duration. rewrite Hnone. by apply mul_zero_finite. }
    rewrite fmap_take in H0. by rewrite lookup_take_lt in H0.
  - vm_compute. reflexivity.
  - eexists. split; vm_compute; reflexivity.
  - eexists. split; vm_compute; reflexivity.
  - split; [vm_compute; reflexivity|].
    eexists. split; vm_compute; reflexivity.
Qed.

Lemma duration_resolution_witness :
  (exists c, sv "1,2" !! 2 = Some c /\ is_note_start c = true) /\
  (exists st, parse 2 (sv "1,2") = Returned st /\
     (duration_ms <$> notes st) !! 1 = Some 0%Z).
Proof.
  destruct duration_resolution as (_ & Hstart & Hzero & _).
  split.
  - apply (Hstart (sv "1,2") 1 2). reflexivity.
  - eexists. split; [vm_compute; reflexivity|].
    apply (Hzero 2 (sv "1,2") _ 1 2); reflexivity.
Defined.

(** C5 as worded, with exact arithmetic, fails: at tempo 23 a note of 5.75
    beats lasts [round_down(60000 / 23 * 5.75) = 15000] by the formula and
    14999 by the code, whose two float roundings fall below 15000. *)
Lemma duration_rounding_counterexample :
  exists st n,
    parse 1 (sv "(23)1_,,,-.") = Returned st /\
    notes st !! 0 = Some n /\
    duration_ms n = 14999%Z /\
    spec_duration_ms 23 (sv "_,,,-.") = 15000%Z /\
    duration_ms n <> spec_duration_ms 23 (duration_units (note_text (sv "(23)1_,,,-.") 4)).
Proof.
  eexists _, _. split; [vm_compute; reflexivity|].
  repeat split; vm_compute; congruence.
Qed.

(** ** The pitch resolver *)

Lemma power_loop_fold (base : float32) (n : nat) (res : float32) :
  power_loop base n res = fold_left mul (replicate n base) res.
Proof. revert res. induction n as [|n IH]; intros res; simpl; [done | apply IH]. Qed.

(** The decimal literal [1.059463094] lies within half a unit in the last
    place of [SEMITONE_STEP], which is therefore the [float] it denotes. *)
Lemma SEMITONE_STEP_literal :
  exists m : positive,
    SEMITONE_STEP = S754_finite false m (-23) /\
    (2 * Z.abs (Zpos m * 10 ^ 9 - 1059463094 * 2 ^ 23) < 10 ^ 9)%Z.
Proof. exists 8887421%positive. split; [reflexivity | vm_compute; reflexivity]. Qed.

(** C4 as worded fails: degree 6 one octave up stands 12 semitones above
    the reference, where [2^(12/12)] is the float 2.0; twelve multiplications
    by the rounded step give five units in the last place more. *)
Lemma pitch_power_counterexample :
  (degree_semitones 6 + 1 * 12 + 0 - 9 = 12)%Z /\
  f2_0 = S754_finite false 8388608 (-22) /\
  calculate_ratio 6 1 0 = S754_finite false 8388613 (-22) /\
  calculate_ratio 6 1 0 <> f2_0 /\
  eqb (calculate_ratio 6 1 0) f2_0 = false.
Proof. repeat split; vm_compute; congruence. Qed.

(** Within five octaves of the reference the product stays close to the
    power of two it stands for. *)
Lemma power_near_twelfth_root (t : Z) :
  (-60 <= t <= 60)%Z -> near_twelfth_root (power SEMITONE_STEP t) t = true.
Proof.
  intros Ht.
  assert (forallb (fun k => near_twelfth_root (power SEMITONE_STEP (Z.of_nat k - 60))
                                              (Z.of_nat k - 60))
                  (seq 0 121) = true) as Hall by (vm_compute; reflexivity).
  rewrite forallb_forall in Hall.
  specialize (Hall (Z.to_nat (t + 60))).
  replace (Z.of_nat (Z.to_nat (t + 60)) - 60)%Z with t in Hall by lia.
  apply Hall, in_seq. lia.
Qed.

(** C4, as the code computes it.  [calculate_ratio] of degree 0 is 0
    whatever the offsets; of a degree 1 to 7 it is [power] of the semitone
    step at the exponent [t = table(degree) + 12 * octave + semitone - 9];
    [power] is a product built by repeated multiplication from 1, and its
    reciprocal for a negative exponent; the step is the [float] nearest to
    the twelfth root of 2.  The result approximates [2^(t/12)]: it is 1 at
    [t = 0], and for [t] within five octaves either way it is a positive
    float within the relative distance [2^-18] of [2^(t/12)]; it is not
    that power exactly, being five units in the last place above 2 at
    [t = 12]. *)
Theorem pitch_resolver :
  (forall o s : Z, calculate_ratio 0 o s = f0_0) /\
  (forall n o s : Z, (1 <= n <= 7)%Z ->
     calculate_ratio n o s =
     power SEMITONE_STEP (degree_semitones n + o * 12 + s - 9)) /\
  (forall (base : float32) (e : Z), (0 <= e)%Z ->
     power base e = repeated_product base (Z.to_nat e)) /\
  (forall (base : float32) (e : Z), (e < 0)%Z ->
     power base e = div f1_0 (repeated_product base (Z.to_nat (- e)))) /\
  (exists m : positive,
     SEMITONE_STEP = S754_finite false m (-23) /\
     ((2 * Zpos m - 1) ^ 12 < 2 * (2 ^ 24) ^ 12 < (2 * Zpos m + 1) ^ 12)%Z) /\
  power SEMITONE_STEP 0 = f1_0 /\
  (forall n o s : Z, (1 <= n <= 7)%Z ->
     (-60 <= degree_semitones n + o * 12 + s - 9 <= 60)%Z ->
     near_twelfth_root (calculate_ratio n o s)
                       (degree_semitones n + o * 12 + s - 9) = true) /\
  power SEMITONE_STEP 12 = S754_finite false 8388613 (-22) /\
  f2_0 = S754_finite false 8388608 (-22).
Proof.
  assert (forall n o s : Z, (1 <= n <= 7)%Z ->
            calculate_ratio n o s =
            power SEMITONE_STEP (degree_semitones n + o * 12 + s - 9)) as Hdeg.
  { intros n o s Hn. unfold calculate_ratio.
    assert ((n =? 0)%Z = false) as -> by lia.
    do 2 f_equal.
    assert (n = 1 \/ n = 2 \/ n = 3 \/ n = 4 \/ n = 5 \/ n = 6 \/ n = 7)%Z
      as Hcases by lia.
    destruct Hcases as [->|[->|[->|[->|[->|[->| ->]]]]]]; reflexivity. }
  split; [|split; [|split; [|split; [|split; [|split; [|split; [|split]]]]]]].
  - reflexivity.
  - exact Hdeg.
  - intros base e He. unfold power, repeated_product.
    destruct (e =? 0)%Z eqn:E0.
    + apply Z.eqb_eq in E0 as ->. reflexivity.
    + assert ((e <? 0)%Z = false) as -> by lia. apply power_loop_fold.
  - intros base e He. unfold power, repeated_product.
    assert ((e =? 0)%Z = false) as -> by lia.
    assert ((e <? 0)%Z = true) as -> by lia.
    by rewrite power_loop_fold.
  - exists 8887421%positive. split; [reflexivity | vm_compute; done].
  - reflexivity.
  - intros n o s Hn Ht. rewrite (Hdeg n o s Hn). by apply power_near_twelfth_root.
  - vm_compute. reflexivity.
  - vm_compute. reflexivity.
Qed.

Lemma pitch_resolver_witness :
  calculate_ratio 1 0 0 = power SEMITONE_STEP (degree_semitones 1 + 0 * 12 + 0 - 9) /\
  power SEMITONE_STEP 3 = repeated_product SEMITONE_STEP (Z.to_nat 3) /\
  power SEMITONE_STEP (-9) =
  div f1_0 (repeated_product SEMITONE_STEP (Z.to_nat (- -9))) /\
  near_twelfth_root (calculate_ratio 6 1 0) (degree_semitones 6 + 1 * 12 + 0 - 9) = true.
Proof.
  destruct pitch_resolver as (_ & Hdeg & Hpos & Hneg & _ & _ & Hnear & _).
  split; [apply Hdeg; lia | split; [apply Hpos; lia | split; [apply Hneg; lia |]]].
  apply Hnear; vm_compute; split; discriminate.
Defined.

(** C8 as worded fails: the two ratios are not in the exact ratio 2. *)
Lemma octave_scaling_counterexample :
  calculate_ratio 1 1 0 <> mul f2_0 (calculate_ratio 1 0 0) /\
  eqb (calculate_ratio 1 1 0) (mul f2_0 (calculate_ratio 1 0 0)) = false.
Proof. split; vm_compute; congruence. Qed.

(** C8, as the code computes it.  Degree 1 one octave up is the product of
    three steps, degree 1 itself the reciprocal of the product of nine; the
    first comes out six units in the last place above twice the second, a
    relative excess below [2^-20]. *)
Theorem octave_scaling :
  exists m0 m1 : positive,
    calculate_ratio 1 0 0 = S754_finite false m0 (-24) /\
    mul f2_0 (calculate_ratio 1 0 0) = S754_finite false m0 (-23) /\
    calculate_ratio 1 1 0 = S754_finite false m1 (-23) /\
    (Zpos m1 - Zpos m0 = 6)%Z /\
    (6 * 2 ^ 20 < Zpos m0)%Z.
Proof.
  exists 9975788%positive, 9975794%positive.
  repeat split; vm_compute; reflexivity.
Qed.

(** ** The end-to-end example *)

(** C3 as worded fails: the last note of the example has no duration
    modifier and lasts 0, not 500. *)
Lemma scale_example_counterexample :
  ~ (exists st,
       ems_literal scale_example = Returned st /\
       Forall (fun n => duration_ms n = 500%Z) (notes st)).
Proof.
  intros (st & Hrun & Hall). vm_compute in Hrun. injection Hrun as <-.
  pose proof (Forall_lookup_1 _ _ 7 _ Hall eq_refl) as H. simpl in H. discriminate H.
Qed.

(** C3, as the code computes it.  The example yields eight notes; the
    first seven last 500 and the eighth, which carries no duration
    modifier, lasts 0; the ratios increase strictly; the last ratio is six
    units in the last place above twice the first. *)
Theorem scale_example_notes :
  exists st,
    ems_literal scale_example = Returned st /\
    note_idx st = 8 /\
    length (notes st) = 8 /\
    duration_ms <$> notes st = [500; 500; 500; 500; 500; 500; 500; 0]%Z /\
    strictly_increasing (ratio <$> notes st) = true /\
    (exists m0 m1 : positive,
       ratio <$> notes st !! 0 = Some (S754_finite false m0 (-24)) /\
       ratio <$> notes st !! 7 = Some (S754_finite false m1 (-23)) /\
       (Zpos m1 - Zpos m0 = 6)%Z).
Proof.
  eexists. split; [vm_compute; reflexivity|].
  split; [reflexivity|]. split; [reflexivity|]. split; [reflexivity|].
  split; [vm_compute; reflexivity|].
  exists 9975788%positive, 9975794%positive. repeat split.
Qed.

(** ** Where the two passes part *)

(** C6.  [count_notes] counts scale digits only: a backtick that starts a
    note is not counted, although [parse] starts a note on it.  On ["`"] the
    count is 0 and the score holds one note; on ["` 1,"] the count is 1, the
    one slot takes the digitless note of the backtick, a rest of length 0,
    and the note [1,] is dropped. *)
Theorem count_notes_misses_backtick :
  count_notes (sv "`") = 0 /\
  true_note_count (sv "`") = 1 /\
  count_notes (sv "` 1,") = 1 /\
  true_note_count (sv "` 1,") = 2 /\
  ems_literal (sv "` 1,") =
  Returned {| notes := [{| ratio := f0_0; duration_ms := 0 |}];
              note_idx := 1; i := 1 |}.
Proof. repeat split; vm_compute; reflexivity. Qed.

(** C9.  After the digits of the header, [parse] consumes a closing
    parenthesis only when it is the very next character, while the counting
    pass skips to it.  On ["(12a5)1,"] the header block leaves the cursor on
    [a] (index 3) with tempo 12 and the counting pass starts the body at
    index 6; the one slot counted for [1,] takes a note read from the [5]
    inside the header. *)
Theorem header_close_not_skipped :
  parse_header (sv "(12a5)1,") = (of_int 12, 3) /\
  skip_header (length (sv "(12a5)1,")) (sv "(12a5)1,") 0 = 6 /\
  count_notes (sv "(12a5)1,") = 1 /\
  ems_literal (sv "(12a5)1,") =
  Returned {| notes := [{| ratio := calculate_ratio 5 0 0; duration_ms := 0 |}];
              note_idx := 1; i := 5 |}.
Proof. repeat split; vm_compute; reflexivity. Qed.

(** C10.  A header whose digit run is empty or is [0] sets the tempo to 0,
    whatever follows, and [parse] divides 60000 by it unguarded:
    [ms_per_beat] is the infinity before the body loop starts, and the
    conversion of a note's duration is then outside what the language
    defines. *)
Theorem zero_tempo_unguarded :
  (forall body : string_view,
     parse_header (sv "()" ++ body) = (S754_zero false, 2) /\
     parse_header (sv "(0)" ++ body) = (S754_zero false, 3)) /\
  ms_per_beat_of (S754_zero false) = S754_infinity false /\
  (forall (N : nat) (body : string_view),
     parse N (sv "()" ++ body) =
     body_loop (length (sv "()" ++ body) - 2) N (sv "()" ++ body)
       (S754_infinity false)
       {| notes := replicate N {| ratio := f0_0; duration_ms := 0 |};
          note_idx := 0; i := 2 |}) /\
  to_uint32_defined (mul (S754_infinity false) (beats (sv ","))) = false /\
  to_uint32_defined (mul (S754_infinity false) (beats [])) = false.
Proof.
  split; [|split; [|split; [|split]]]; try reflexivity.
  intros body. split; reflexivity.
Qed.

(** ** The header reader *)

Lemma int_wrap_step (a d : Z) :
  int_wrap (int_wrap a * 10 + d) = int_wrap (a * 10 + d).
Proof.
  unfold int_wrap. f_equal.
  rewrite (Z.mod_eq (a + 2 ^ 31) (2 ^ 32)) by lia.
  replace ((a + 2 ^ 31 - 2 ^ 32 * ((a + 2 ^ 31) / 2 ^ 32) - 2 ^ 31) * 10 + d + 2 ^ 31)%Z
    with (a * 10 + d + 2 ^ 31 + (- 10 * ((a + 2 ^ 31) / 2 ^ 32)) * 2 ^ 32)%Z by lia.
  apply Z_mod_plus_full.
Qed.

Lemma decimal_digit_value (c : ascii) :
  is_decimal_digit c = true -> (0 <= code c - code "0" <= 9)%Z.
Proof.
  destruct c as [[] [] [] [] [] [] [] []]; intros H; vm_compute in H;
    try discriminate H; vm_compute; split; discriminate.
Qed.

Lemma parse_int_loop_run (ds rest : string_view) (v : Z) (idx : nat) :
  Forall (fun c => is_decimal_digit c = true) ds ->
  starts_with is_decimal_digit rest = false ->
  parse_int_loop (ds ++ rest) (int_wrap v) idx =
  (int_wrap (fold_left (fun v c => (v * 10 + (code c - code "0"))%Z) ds v),
   idx + length ds).
Proof.
  intros Hds Hrest. revert v idx.
  induction Hds as [|c ds Hc Hds IH]; intros v idx; simpl.
  - rewrite Nat.add_0_r. destruct rest as [|c rest]; [done|].
    simpl in *. by rewrite Hrest.
  - rewrite Hc, int_wrap_step, IH. f_equal. lia.
Qed.

Lemma decimal_value_nonneg (ds : string_view) (v : Z) :
  Forall (fun c => is_decimal_digit c = true) ds -> (0 <= v)%Z ->
  (0 <= fold_left (fun v c => (v * 10 + (code c - code "0"))%Z) ds v)%Z.
Proof.
  intros Hds. revert v. induction Hds as [|c ds Hc Hds IH]; intros v Hv; simpl; [done|].
  apply IH. pose proof (decimal_digit_value c Hc). lia.
Qed.

(** X1.  [parse_int] reads a run of decimal digits as its decimal value, wrapped
    to 32 bits, and leaves the index on the first character behind the
    run; a value below [2^31] is read exactly. *)
Theorem parse_int_decimal (pre ds rest : string_view) :
  Forall (fun c => is_decimal_digit c = true) ds ->
  starts_with is_decimal_digit rest = false ->
  parse_int (pre ++ ds ++ rest) (length pre) =
  (int_wrap (decimal_value ds), length pre + length ds) /\
  ((decimal_value ds < 2 ^ 31)%Z -> int_wrap (decimal_value ds) = decimal_value ds).
Proof.
  intros Hds Hrest. split.
  - unfold parse_int. rewrite drop_app_length.
    change 0%Z with (int_wrap 0). by apply parse_int_loop_run.
  - intros Hlt. pose proof (decimal_value_nonneg ds 0 Hds (Z.le_refl 0)) as Hge.
    fold (decimal_value ds) in Hge. unfold int_wrap.
    rewrite Z.mod_small by lia. lia.
Qed.

Lemma parse_int_decimal_witness :
  parse_int (sv "(" ++ sv "104" ++ sv ")4s,") (length (sv "(")) =
  (int_wrap (decimal_value (sv "104")), length (sv "(") + length (sv "104")) /\
  int_wrap (decimal_value (sv "104")) = decimal_value (sv "104").
Proof.
  destruct (parse_int_decimal (sv "(") (sv "104") (sv ")4s,")) as [Hrun Hexact];
    [repeat constructor | reflexivity |].
  split; [exact Hrun | apply Hexact; reflexivity].
Defined.

Lemma parse_header_well_formed (ds body : string_view) :
  Forall (fun c => is_decimal_digit c = true) ds ->
  parse_header ("("%char :: ds ++ ")"%char :: body) =
  (of_int (int_wrap (decimal_value ds)), 2 + length ds).
Proof.
  intros Hds. unfold parse_header. simpl.
  pose proof (parse_int_loop_run ds (")"%char :: body) 0 1 Hds eq_refl) as Hpi.
  change (int_wrap 0) with 0%Z in Hpi. fold (decimal_value ds) in Hpi.
  unfold parse_int. simpl drop. rewrite drop_0, Hpi. unfold string_view in *.
  assert (("("%char :: ds ++ ")"%char :: body) !! (1 + length ds) = Some ")"%char) as ->.
  { simpl. rewrite lookup_app_r by lia. by rewrite Nat.sub_diag. }
  reflexivity.
Qed.

(** X2.  Without an opening parenthesis the header block keeps the default tempo
    120 and does not move the cursor; on a well-formed header, digits
    between parentheses, it reads the tempo and stops behind the closing
    parenthesis. *)
Theorem header_reader (ds body : string_view) :
  Forall (fun c => is_decimal_digit c = true) ds ->
  (starts_with (fun c => Ascii.eqb c "(") body = false ->
   parse_header body = (f120_0, 0)) /\
  parse_header (sv "(" ++ ds ++ sv ")" ++ body) =
  (of_int (int_wrap (decimal_value ds)), 2 + length ds).
Proof.
  intros Hds. split.
  - intros Hb. unfold parse_header. destruct body as [|c body]; [done|].
    simpl in *. by rewrite Hb.
  - apply (parse_header_well_formed ds body Hds).
Qed.

Lemma header_reader_witness :
  parse_header (sv "1,2,") = (f120_0, 0) /\
  parse_header (sv "(" ++ sv "200" ++ sv ")" ++ sv "1,2,") =
  (of_int (int_wrap (decimal_value (sv "200"))), 2 + length (sv "200")).
Proof.
  destruct (header_reader (sv "200") (sv "1,2,")) as [Hnone Hsome];
    [repeat constructor |].
  split; [apply Hnone; reflexivity | exact Hsome].
Defined.

(** ** The counting pass on headers *)

Lemma scan_body_count (rest : string_view) :
  scan_body rest 0 = count_if is_scale_digit rest.
Proof.
  unfold count_if. induction rest as [|c rest IH]; [done|].
  rewrite scan_body_cons, IH. simpl. by destruct (is_scale_digit c).
Qed.

Lemma skip_to_close_shift (rest : string_view) (a k : nat) :
  skip_to_close rest (a + k) = a + skip_to_close rest k.
Proof.
  revert k. induction rest as [|c rest IH]; intros k; simpl; [done|].
  destruct (Ascii.eqb c ")"); [done|]. by rewrite <- IH, Nat.add_succ_r.
Qed.

Lemma skip_to_close_run (inner rest : string_view) (k : nat) :
  Forall (fun c => Ascii.eqb c ")" = false) inner ->
  starts_with (fun c => negb (Ascii.eqb c ")")) rest = false ->
  skip_to_close (inner ++ rest) k = k + length inner.
Proof.
  intros Hin Hrest. revert k.
  induction Hin as [|c inner Hc Hin IH]; intros k; simpl.
  - rewrite Nat.add_0_r. destruct rest as [|c rest]; [done|]. simpl in *.
    by destruct (Ascii.eqb c ")").
  - rewrite Hc, IH. lia.
Qed.

Lemma skip_header_shift (pre score : string_view) (fuel k : nat) :
  skip_header fuel (pre ++ score) (length pre + k) =
  length pre + skip_header fuel score k.
Proof.
  revert k. induction fuel as [|fuel IH]; intros k; cbn [skip_header]; [done|].
  unfold string_view in *. rewrite lookup_app_r by lia.
  replace (length pre + k - length pre) with k by lia.
  destruct (score !! k) as [c|]; [|done].
  destruct (Ascii.eqb c "("); [|done].
  rewrite drop_app_add', skip_to_close_shift, <- Nat.add_succ_r by done.
  apply IH.
Qed.

Lemma skip_header_group (inner rest : string_view) :
  Forall (fun c => Ascii.eqb c ")" = false) inner ->
  skip_header (length ("("%char :: inner ++ ")"%char :: rest))
    ("("%char :: inner ++ ")"%char :: rest) 0 =
  2 + length inner + skip_header (length rest) rest 0.
Proof.
  intros Hin. cbn [length skip_header]. unfold string_view in *.
  change ((("("%char :: inner ++ ")"%char :: rest) : list ascii) !! 0)
    with (Some "("%char).
  rewrite drop_0. change (Ascii.eqb "(" "(") with true. cbv iota.
  change (skip_to_close ("("%char :: inner ++ ")"%char :: rest) 0)
    with (skip_to_close (inner ++ ")"%char :: rest) 1).
  rewrite (skip_to_close_run inner (")"%char :: rest) 1 Hin eq_refl).
  pose proof (skip_header_shift ("("%char :: inner ++ [")"%char]) rest
                (length (inner ++ ")"%char :: rest)) 0) as Hshift.
  assert (length ("("%char :: inner ++ [")"%char]) = 2 + length inner) as Hg
    by (simpl; rewrite length_app; simpl; lia).
  rewrite Hg, Nat.add_0_r in Hshift.
  replace (("("%char :: inner ++ [")"%char]) ++ rest)
    with ("("%char :: inner ++ ")"%char :: rest) in Hshift
    by (simpl; by rewrite <- app_assoc).
  replace (S (1 + length inner)) with (2 + length inner) by lia.
  rewrite Hshift. f_equal. apply skip_header_fuel; rewrite ?length_app; simpl; lia.
Qed.

Lemma count_notes_skips_group_gen (inner rest : string_view) :
  Forall (fun c => Ascii.eqb c ")" = false) inner ->
  count_notes (sv "(" ++ inner ++ sv ")" ++ rest) = count_notes rest.
Proof.
  intros Hin. unfold count_notes.
  change (sv "(" ++ inner ++ sv ")" ++ rest) with ("("%char :: inner ++ ")"%char :: rest).
  rewrite skip_header_group by done.
  replace ("("%char :: inner ++ ")"%char :: rest)
    with (("("%char :: inner ++ [")"%char]) ++ rest)
    by (simpl; by rewrite <- app_assoc).
  rewrite drop_app_add'; [done|]. simpl. rewrite length_app. simpl. lia.
Qed.

(** X3.  [count_notes] passes over a leading parenthesised group, and so over any
    number of them: the count of a score that starts with [( ... )] is the
    count of what follows the group. *)
Theorem count_notes_skips_group (inner rest : string_view) :
  Forall (fun c => Ascii.eqb c ")" = false) inner ->
  count_notes (sv "(" ++ inner ++ sv ")" ++ rest) = count_notes rest.
Proof. apply count_notes_skips_group_gen. Qed.

Lemma count_notes_skips_group_witness :
  count_notes (sv "(" ++ sv "104" ++ sv ")" ++ sv "(x)4s,4s-") = count_notes (sv "(x)4s,4s-").
Proof. apply count_notes_skips_group. repeat constructor. Defined.

(** X4.  On a score without header, and on one with a well-formed header,
    [count_notes] is the number of scale digits of the body. *)
Theorem count_notes_counts_digits (ds body : string_view) :
  Forall (fun c => is_decimal_digit c = true) ds ->
  starts_with (fun c => Ascii.eqb c "(") body = false ->
  count_notes body = count_if is_scale_digit body /\
  count_notes (sv "(" ++ ds ++ sv ")" ++ body) = count_if is_scale_digit body.
Proof.
  intros Hds Hbody.
  assert (count_notes body = count_if is_scale_digit body) as Hfree.
  { unfold count_notes. rewrite <- scan_body_count.
    destruct body as [|c body]; [done|]. simpl in *. rewrite Hbody. by rewrite drop_0. }
  split; [done|]. rewrite <- Hfree. apply count_notes_skips_group_gen.
  eapply Forall_impl; [exact Hds|]. intros c Hc. by apply decimal_digit_not_close.
Qed.

Lemma count_notes_counts_digits_witness :
  count_notes (sv "1`,2,` 3") = count_if is_scale_digit (sv "1`,2,` 3") /\
  count_notes (sv "(" ++ sv "90" ++ sv ")" ++ sv "1`,2,` 3")
  = count_if is_scale_digit (sv "1`,2,` 3").
Proof.
  apply (count_notes_counts_digits (sv "90") (sv "1`,2,` 3"));
    [repeat constructor | reflexivity].
Defined.

Lemma parse_zero_capacity (score : string_view) :
  parse 0 score =
  Returned {| notes := []; note_idx := 0; i := (parse_header score).2 |}.
Proof.
  unfold parse. destruct (parse_header score) as [bpm i0]. simpl.
  by rewrite body_loop_full by (simpl; lia).
Qed.

(** X5.  A header that is never closed swallows the score: [count_notes] is 0
    and the pipeline returns the empty array, whatever notes the text
    holds. *)
Theorem unterminated_header_empty (inner : string_view) :
  Forall (fun c => Ascii.eqb c ")" = false) inner ->
  count_notes (sv "(" ++ inner) = 0 /\
  ems_literal (sv "(" ++ inner) =
  Returned {| notes := []; note_idx := 0; i := (parse_header (sv "(" ++ inner)).2 |}.
Proof.
  intros Hin.
  assert (count_notes (sv "(" ++ inner) = 0) as Hcount.
  { unfold count_notes. change (sv "(" ++ inner) with ("("%char :: inner).
    cbn [length skip_header]. unfold string_view in *.
    change ((("("%char :: inner) : list ascii) !! 0) with (Some "("%char).
    rewrite drop_0. change (Ascii.eqb "(" "(") with true. cbv iota.
    change (skip_to_close ("("%char :: inner) 0) with (skip_to_close inner 1).
    pose proof (skip_to_close_run inner [] 1 Hin eq_refl) as Hc.
    rewrite app_nil_r in Hc. rewrite Hc.
    pose proof (skip_header_ge (length inner) ("("%char :: inner) (S (1 + length inner))).
    rewrite drop_ge; [done | cbn [length]; lia]. }
  split; [done|]. unfold ems_literal. rewrite Hcount. apply parse_zero_capacity.
Qed.

Lemma unterminated_header_empty_witness :
  count_notes (sv "(" ++ sv "120 1,2,3,") = 0 /\
  ems_literal (sv "(" ++ sv "120 1,2,3,") =
  Returned {| notes := []; note_idx := 0;
              i := (parse_header (sv "(" ++ sv "120 1,2,3,")).2 |}.
Proof. apply unterminated_header_empty. repeat constructor. Defined.

(** ** The output array *)

(** Stores go below the final [note_idx]: the slots from it on are as they
    were. *)
Lemma body_loop_suffix_stable (fuel N : nat) (score : string_view) (mpb : float32)
    (st st' : Locals) :
  body_loop fuel N score mpb st = Returned st' ->
  note_idx st <= note_idx st' /\
  drop (note_idx st') (notes st') = drop (note_idx st') (notes st).
Proof.
  revert st. induction fuel as [|fuel IH]; intros [ns k pos]; simpl.
  - repeat case_match; intros; simplify_eq; done.
  - destruct (score !! pos) as [c|]; [|intros; simplify_eq; done].
    destruct (k <? N); [|intros; simplify_eq; done].
    destruct (is_note_start c).
    + destruct (parse_note score pos) as [pos' l].
      unfold store. destruct (k <? length ns); [|done].
      intros Hrun. apply IH in Hrun as [Hle Hdrop]. simpl in *.
      split; [lia|]. rewrite Hdrop. apply drop_insert_lt. lia.
    + intros Hrun. by apply IH in Hrun.
Qed.

(** X6.  The slots [parse] has not written hold the value-initialised note: a
    capacity above the number of notes leaves a tail of rests of length 0. *)
Theorem unwritten_slots_zero (N : nat) (score : string_view) :
  exists st,
    parse N score = Returned st /\
    drop (note_idx st) (notes st) = replicate (N - note_idx st) zero_note.
Proof.
  destruct (parse_returns N score) as (st & Hrun & _).
  exists st. split; [done|].
  unfold parse in Hrun. destruct (parse_header score) as [bpm i0].
  apply body_loop_suffix_stable in Hrun as [_ Hdrop]. simpl in Hdrop.
  rewrite Hdrop. apply drop_replicate.
Qed.

(** X7.  Raising the capacity only appends: [parse<N>] is [parse<N + d>] cut
    after [N] notes. *)
Theorem capacity_prefix (N d : nat) (score : string_view) :
  exists stN stM,
    parse N score = Returned stN /\
    parse (N + d) score = Returned stM /\
    notes stN = take N (notes stM) /\
    note_idx stN = Nat.min N (note_idx stM).
Proof.
  destruct (parse_returns N score) as (st & Hrun & _ & Hidx & _).
  destruct (parse_returns (N + d) score) as (st2 & Hrun2 & _).
  exists st, st2. do 2 (split; [done|]).
  unfold parse in Hrun, Hrun2. destruct (parse_header score) as [bpm i0].
  destruct (body_loop_capacity (length score - i0) N (N + d) score
              (ms_per_beat_of bpm)
              {| notes := replicate N {| ratio := f0_0; duration_ms := 0 |};
                 note_idx := 0; i := i0 |}
              {| notes := replicate (N + d) {| ratio := f0_0; duration_ms := 0 |};
                 note_idx := 0; i := i0 |})
    as (stN' & stM' & HrN & HrM & Htake & Hcase); simpl;
    try (rewrite ?length_replicate, ?take_replicate, ?Nat.min_l; (done || lia)).
  rewrite HrN in Hrun. rewrite HrM in Hrun2. simplify_eq.
  split; [done|]. destruct Hcase as [[? ?]|(? & ? & ?)]; lia.
Qed.

Lemma count_if_cons (p : ascii -> bool) (c : ascii) (l : string_view) :
  count_if p (c :: l) = (if p c then 1 else 0) + count_if p l.
Proof. unfold count_if. simpl. by destruct (p c). Qed.

Lemma count_if_le_length (p : ascii -> bool) (l : string_view) :
  count_if p l <= length l.
Proof.
  induction l as [|c l IH]; [done|]. rewrite count_if_cons. simpl.
  destruct (p c); lia.
Qed.

Lemma count_if_drop_mono (p : ascii -> bool) (score : string_view) (a b : nat) :
  a <= b -> count_if p (drop b score) <= count_if p (drop a score).
Proof.
  intros Hab. replace b with (a + (b - a)) by lia. rewrite <- drop_drop.
  generalize (drop a score) as rest. generalize (b - a) as n. clear.
  induction n as [|n IH]; intros rest; [by rewrite drop_0|].
  destruct rest as [|c rest]; [done|]. rewrite count_if_cons. simpl.
  specialize (IH rest). lia.
Qed.

(** Every note written starts on a note-start character of its own. *)
Lemma body_loop_upper (fuel N : nat) (score : string_view) (mpb : float32)
    (st st' : Locals) :
  body_loop fuel N score mpb st = Returned st' ->
  note_idx st' + count_if is_note_start (drop (i st') score)
  <= note_idx st + count_if is_note_start (drop (i st) score).
Proof.
  revert st. induction fuel as [|fuel IH]; intros [ns k pos]; simpl.
  - repeat case_match; intros; simplify_eq; done.
  - destruct (score !! pos) as [c|] eqn:Hc; [|intros; simplify_eq; done].
    destruct (k <? N); [|intros; simplify_eq; done].
    rewrite (lookup_drop_head score pos c Hc), count_if_cons.
    destruct (is_note_start c) eqn:Hstart.
    + destruct (parse_note_advance score pos c Hc Hstart) as [Hadv _].
      destruct (parse_note score pos) as [pos' l]. simpl in Hadv.
      unfold store. destruct (k <? length ns); [|done].
      intros Hrun. apply IH in Hrun. simpl in Hrun.
      pose proof (count_if_drop_mono is_note_start score (S pos) pos'). lia.
    + intros Hrun. apply IH in Hrun. simpl in *. lia.
Qed.

Lemma note_count_bounds_gen (score : string_view) :
  count_if is_scale_digit (drop (parse_header score).2 score)
  <= true_note_count score
  <= count_if is_note_start (drop (parse_header score).2 score).
Proof.
  unfold true_note_count.
  destruct (parse_returns (length score) score) as (st & Hrun & _ & _ & _ & _ & Hlow).
  rewrite Hrun. split.
  - rewrite scan_body_count in Hlow.
    pose proof (count_if_le_length is_scale_digit (drop (parse_header score).2 score)) as Hle.
    rewrite length_drop in Hle. lia.
  - unfold parse in Hrun. destruct (parse_header score) as [bpm i0].
    apply body_loop_upper in Hrun. simpl in *. lia.
Qed.

(** X8.  The number of notes of a score lies between the number of scale digits
    and the number of note-start characters (digits and backticks) of the
    body [parse] reads. *)
Theorem note_count_bounds (score : string_view) :
  count_if is_scale_digit (drop (parse_header score).2 score)
  <= true_note_count score
  <= count_if is_note_start (drop (parse_header score).2 score).
Proof. apply note_count_bounds_gen. Qed.

(** X9.  The pipeline yields the first [count_notes] notes of the score, and
    [count_notes] never exceeds the number of notes: no slot of the array
    is left unwritten, notes beyond the count are dropped. *)
Theorem pipeline_prefix (score : string_view) :
  exists st full,
    ems_literal score = Returned st /\
    parse (length score) score = Returned full /\
    count_notes score <= note_idx full /\
    note_idx st = count_notes score /\
    notes st = take (count_notes score) (notes full).
Proof.
  unfold ems_literal.
  destruct (parse_returns (length score) score)
    as (full & Hfull & _ & HidxM & _ & _ & Hlow).
  assert (count_notes score <= note_idx full) as Hcount.
  { pose proof (scan_body_drop_mono score _ _ (header_cursor_le_skip score)) as Hmono.
    pose proof (count_if_le_length is_scale_digit (drop (parse_header score).2 score)) as Hle.
    rewrite length_drop in Hle. rewrite scan_body_count in Hlow, Hmono.
    unfold count_notes. rewrite scan_body_count in *. lia. }
  destruct (parse_returns (count_notes score) score) as (st & Hrun & _ & Hidx & _).
  exists st, full. do 3 (split; [done|]).
  unfold parse in Hrun, Hfull. destruct (parse_header score) as [bpm i0].
  destruct (body_loop_capacity (length score - i0) (count_notes score) (length score)
              score (ms_per_beat_of bpm)
              {| notes := replicate (count_notes score) {| ratio := f0_0; duration_ms := 0 |};
                 note_idx := 0; i := i0 |}
              {| notes := replicate (length score) {| ratio := f0_0; duration_ms := 0 |};
                 note_idx := 0; i := i0 |})
    as (stN' & stM' & HrN & HrM & Htake & Hcase); simpl;
    rewrite ?length_replicate, ?take_replicate, ?Nat.min_l; try done; try lia.
  rewrite HrN in Hrun. rewrite HrM in Hfull. simplify_eq.
  split; [|done]. destruct Hcase as [[? ?]|(? & ? & ?)]; lia.
Qed.

(** ** Pitch *)

Lemma calculate_ratio_degree (n o s : Z) :
  (1 <= n <= 7)%Z ->
  calculate_ratio n o s = power SEMITONE_STEP (degree_semitones n + o * 12 + s - 9).
Proof.
  intros Hn. unfold calculate_ratio.
  assert ((n =? 0)%Z = false) as -> by lia.
  do 2 f_equal.
  assert (n = 1 \/ n = 2 \/ n = 3 \/ n = 4 \/ n = 5 \/ n = 6 \/ n = 7)%Z
    as Hcases by lia.
  destruct Hcases as [->|[->|[->|[->|[->|[->| ->]]]]]]; reflexivity.
Qed.

(** X10.  The ratio of a sounding note depends on its total semitone count only:
    two spellings of the same pitch ([7s] and [1`], [3s] and [4]) get the
    same ratio, bit for bit. *)
Theorem enharmonic_equal (n1 o1 s1 n2 o2 s2 : Z) :
  (1 <= n1 <= 7)%Z -> (1 <= n2 <= 7)%Z ->
  (degree_semitones n1 + o1 * 12 + s1 = degree_semitones n2 + o2 * 12 + s2)%Z ->
  calculate_ratio n1 o1 s1 = calculate_ratio n2 o2 s2.
Proof.
  intros H1 H2 Heq. rewrite !calculate_ratio_degree by done. by rewrite Heq.
Qed.

Lemma enharmonic_equal_witness : calculate_ratio 7 0 1 = calculate_ratio 1 1 0.
Proof. apply enharmonic_equal; [lia | lia | reflexivity]. Defined.

(** X11.  A note nine semitones above Do, the La of the middle octave and its
    other spellings, has ratio exactly 1: the ratios are relative to La,
    not to Do. *)
Theorem reference_pitch (n o s : Z) :
  (1 <= n <= 7)%Z -> (degree_semitones n + o * 12 + s = 9)%Z ->
  calculate_ratio n o s = f1_0.
Proof.
  intros Hn Heq. rewrite calculate_ratio_degree by done.
  replace (degree_semitones n + o * 12 + s - 9)%Z with 0%Z by lia. reflexivity.
Qed.

Lemma reference_pitch_witness : calculate_ratio 6 0 0 = f1_0.
Proof. apply reference_pitch; [lia | reflexivity]. Defined.

Lemma switch_keeps_num (c : ascii) (l l' : NoteLocals) :
  switch_mod c l = Some l' -> num l' = num l.
Proof.
  unfold switch_mod, add_duration. intros H.
  repeat (case_match; simplify_eq; try done).
Qed.

Lemma modifier_loop_keeps_num (rest : string_view) (j : nat) (l : NoteLocals) :
  num (modifier_loop rest j l).2 = num l.
Proof.
  revert j l. induction rest as [|c rest IH]; intros j l; simpl; [done|].
  destruct (switch_mod c l) as [l'|] eqn:Hsw; [|done].
  rewrite IH. by apply switch_keeps_num in Hsw.
Qed.

Lemma scale_digit_value (c : ascii) :
  is_scale_digit c = true -> (0 <= code c - code "0" <= 7)%Z.
Proof.
  destruct c as [[] [] [] [] [] [] [] []]; intros H; vm_compute in H;
    try discriminate H; vm_compute; split; discriminate.
Qed.

(** X12.  The note number [parse] hands to [calculate_ratio] is always between 0
    and 7: the lookup in [scale_semitones] never leaves the table. *)
Theorem note_number_in_table (score : string_view) (j : nat) :
  (0 <= num (parse_note score j).2 <= 7)%Z /\
  Z.to_nat (num (parse_note score j).2) < length scale_semitones.
Proof.
  assert (0 <= num (parse_note score j).2 <= 7)%Z as Hrange.
  { unfold parse_note.
    repeat (case_match; simplify_eq); rewrite modifier_loop_keeps_num; simpl;
      try lia; by apply scale_digit_value. }
  split; [done|]. simpl. lia.
Qed.



(** ** Scores without backticks *)

Lemma count_notes_headerless (body : string_view) :
  starts_with (fun c => Ascii.eqb c "(") body = false ->
  count_notes body = count_if is_scale_digit body.
Proof.
  intros Hbody. unfold count_notes. rewrite <- scan_body_count.
  destruct body as [|c body]; [done|]. simpl in *. rewrite Hbody. by rewrite drop_0.
Qed.

Lemma count_if_ext (p q : ascii -> bool) (l : string_view) :
  Forall (fun c => p c = q c) l -> count_if p l = count_if q l.
Proof.
  induction 1 as [|c l Hc Hl IH]; [done|]. rewrite !count_if_cons, IH, Hc. done.
Qed.

(** X14.  On a score with no header and no backtick the counting pass is exact:
    [count_notes] is the number of notes, and the pipeline returns every
    note of the score. *)
Theorem exact_count_without_backtick (score : string_view) :
  starts_with (fun c => Ascii.eqb c "(") score = false ->
  Forall (fun c => Ascii.eqb c "`" = false) score ->
  count_notes score = true_note_count score /\
  exists st full,
    ems_literal score = Returned st /\
    parse (length score) score = Returned full /\
    note_idx st = note_idx full /\
    notes st = take (note_idx full) (notes full).
Proof.
  intros Hhead Hbt.
  assert (parse_header score = (f120_0, 0)) as Hh.
  { unfold parse_header. destruct score as [|c score]; [done|]. simpl in *. by rewrite Hhead. }
  pose proof (note_count_bounds_gen score) as [Hlo Hhi]. rewrite Hh in Hlo, Hhi.
  simpl in Hlo, Hhi. rewrite drop_0 in Hlo, Hhi.
  assert (count_if is_note_start score = count_if is_scale_digit score) as Heq.
  { apply count_if_ext. eapply Forall_impl; [exact Hbt|]. intros c Hc. simpl in Hc.
    unfold is_note_start. by rewrite Hc, orb_false_r. }
  assert (count_notes score = true_note_count score) as Hcount
    by (rewrite count_notes_headerless by done; lia).
  split; [done|]. unfold ems_literal. rewrite Hcount. unfold true_note_count.
  destruct (parse_returns (length score) score) as (full & Hfull & Hlen & Hidx & _).
  rewrite Hfull.
  destruct (parse_returns (note_idx full) score) as (st & Hrun & _ & HidxN & _).
  exists st, full. do 2 (split; [done|]).
  unfold parse in Hrun, Hfull. rewrite Hh in Hrun, Hfull.
  destruct (body_loop_capacity (length score - 0) (note_idx full) (length score)
              score (ms_per_beat_of f120_0)
              {| notes := replicate (note_idx full) {| ratio := f0_0; duration_ms := 0 |};
                 note_idx := 0; i := 0 |}
              {| notes := replicate (length score) {| ratio := f0_0; duration_ms := 0 |};
                 note_idx := 0; i := 0 |})
    as (stN' & stM' & HrN & HrM & Htake & Hcase); simpl;
    try (rewrite ?length_replicate, ?take_replicate, ?Nat.min_l; (done || lia)).
  rewrite HrN in Hrun. rewrite HrM in Hfull. simplify_eq.
  split; [|done]. destruct Hcase as [[? ?]|(? & ? & ?)]; lia.
Qed.

Lemma exact_count_without_backtick_witness :
  count_notes (sv "4s,4s-,3-3,, x") = true_note_count (sv "4s,4s-,3-3,, x") /\
  exists st full,
    ems_literal (sv "4s,4s-,3-3,, x") = Returned st /\
    parse (length (sv "4s,4s-,3-3,, x")) (sv "4s,4s-,3-3,, x") = Returned full /\
    note_idx st = note_idx full /\
    notes st = take (note_idx full) (notes full).
Proof.
  apply exact_count_without_backtick; [reflexivity | repeat constructor].
Defined.

(** ** The beat header of the usage examples *)

(** X15.  The usage line of the header file and the first example write a beat
    header [{4}] behind the tempo.  [parse] has no such header: the brace
    is skipped as an unknown character and the digit inside is read as a
    note, so the first event of the array is that degree with no duration
    unit, and [count_notes] counts it. *)
Theorem beat_header_is_a_note (N : nat) (ds body : string_view) (d : ascii) :
  Forall (fun c => is_decimal_digit c = true) ds ->
  is_scale_digit d = true ->
  starts_with (fun c => Ascii.eqb c "(") body = false ->
  count_notes (sv "(" ++ ds ++ sv "){" ++ d :: sv "}" ++ body)
  = S (count_if is_scale_digit body) /\
  exists st,
    parse (S N) (sv "(" ++ ds ++ sv "){" ++ d :: sv "}" ++ body) = Returned st /\
    notes st !! 0 =
    Some (emit (ms_per_beat_of (of_int (int_wrap (decimal_value ds))))
               (note_of false d [] [])).
Proof.
  intros Hds Hd Hbody.
  set (score := sv "(" ++ ds ++ sv "){" ++ d :: sv "}" ++ body).
  assert (score = "("%char :: ds ++ ")"%char :: sv "{" ++ d :: sv "}" ++ body) as Hscore
    by reflexivity.
  split.
  - unfold score.
    change (sv "(" ++ ds ++ sv "){" ++ d :: sv "}" ++ body)
      with (sv "(" ++ ds ++ sv ")" ++ (sv "{" ++ d :: sv "}" ++ body)).
    rewrite count_notes_skips_group_gen.
    + rewrite count_notes_headerless by reflexivity.
      simpl. rewrite !count_if_cons, Hd. reflexivity.
    + eapply Forall_impl; [exact Hds|]. intros c Hc. by apply decimal_digit_not_close.
  - destruct (parse_returns (S N) score) as (st & Hrun & Hlen & _).
    exists st. split; [done|].
    assert (parse_header score
            = (of_int (int_wrap (decimal_value ds)), 2 + length ds)) as Hh
      by (rewrite Hscore; by apply parse_header_well_formed).
    unfold parse in Hrun. rewrite Hh in Hrun.
    set (p := 2 + length ds) in *.
    assert (drop p score = sv "{" ++ d :: sv "}" ++ body) as Hp.
    { rewrite Hscore. unfold p.
      change ("("%char :: ds ++ ")"%char :: sv "{" ++ d :: sv "}" ++ body)
        with (("("%char :: ds) ++ ")"%char :: sv "{" ++ d :: sv "}" ++ body).
      replace (2 + length ds) with (length ("("%char :: ds) + 1) by (simpl; lia).
      by rewrite drop_app_add'. }
    destruct (drop_cons_inv score p _ _ Hp) as [Hbrace Hp1].
    destruct (drop_cons_inv score (S p) _ _ Hp1) as [Hdig _].
    assert (exists fuel, length score - p = S (S fuel)) as [fuel Hfuel].
    { exists (length (sv "}" ++ body)).
      pose proof (f_equal length Hp) as Hl. rewrite length_drop in Hl.
      rewrite Hl. simpl. lia. }
    rewrite Hfuel in Hrun.
    rewrite (body_loop_skip _ (S N) score _ _ "{"%char) in Hrun
      by (simpl; done || lia).
    cbn [notes note_idx i] in Hrun.
    rewrite (body_loop_note _ (S N) score _ _ d) in Hrun;
      [| done | simpl; lia | unfold is_note_start; by rewrite Hd
       | simpl; rewrite length_replicate; lia].
    cbn [notes note_idx i] in Hrun.
    rewrite (parse_note_text score (S p) false d [] [] (sv "}" ++ body)) in Hrun;
      [| exact Hp1 | done | constructor | constructor | by split].
    cbn [fst snd] in Hrun.
    apply body_loop_prefix_stable in Hrun. cbn [notes note_idx] in Hrun.
    apply (f_equal (fun l => l !! 0)) in Hrun.
    rewrite !lookup_take_lt in Hrun by lia. rewrite Hrun. reflexivity.
Qed.

Lemma beat_header_is_a_note_witness :
  count_notes (sv "(" ++ sv "104" ++ sv "){" ++ "4"%char :: sv "}" ++ sv "4s,4s,5,")
  = S (count_if is_scale_digit (sv "4s,4s,5,")) /\
  exists st,
    parse (S 3) (sv "(" ++ sv "104" ++ sv "){" ++ "4"%char :: sv "}" ++ sv "4s,4s,5,")
    = Returned st /\
    notes st !! 0 =
    Some (emit (ms_per_beat_of (of_int (int_wrap (decimal_value (sv "104")))))
               (note_of false "4" [] [])).
Proof.
  apply beat_header_is_a_note; [repeat constructor | reflexivity | reflexivity].
Defined.

(** ** Audio.hpp: the PCM of a melody *)

Section SynthesisFacts.

Variable sin : Float64.float64 -> Float64.float64.

Lemma sample_loop_length (count : nat) (k samples fadeSamples : Z) (startIndex : nat)
    (phaseInc phase : Float64.float64) (pcm : list float32) :
  length (sample_loop sin count k samples fadeSamples startIndex phaseInc phase pcm)
  = length pcm.
Proof.
  revert k phase pcm. induction count as [|count IH]; intros k phase pcm; simpl; [done|].
  by rewrite IH, length_insert.
Qed.

(** The sample loop writes relative to [startIndex]: what lies before it
    is untouched. *)
Lemma sample_loop_offset (count : nat) (k samples fadeSamples : Z) (startIndex : nat)
    (phaseInc phase : Float64.float64) (pre pcm : list float32) :
  sample_loop sin count k samples fadeSamples (length pre + startIndex) phaseInc phase
    (pre ++ pcm)
  = pre ++ sample_loop sin count k samples fadeSamples startIndex phaseInc phase pcm.
Proof.
  revert k phase pcm. induction count as [|count IH]; intros k phase pcm; simpl; [done|].
  rewrite <- Nat.add_assoc, insert_app_r. apply IH.
Qed.

Lemma add_note_app (sampleRate : Z) (pcm : list float32) (n : Note) :
  add_note sin sampleRate pcm n = pcm ++ add_note sin sampleRate [] n.
Proof.
  unfold add_note. simpl. rewrite <- (Nat.add_0_r (length pcm)).
  by rewrite sample_loop_offset, <- app_assoc.
Qed.

Lemma fold_add_note_app (sampleRate : Z) (notes : list Note) (pcm : list float32) :
  fold_left (add_note sin sampleRate) notes pcm
  = pcm ++ fold_left (add_note sin sampleRate) notes [].
Proof.
  revert pcm. induction notes as [|n notes IH]; intros pcm; simpl.
  - by rewrite app_nil_r.
  - rewrite IH, (IH (add_note sin sampleRate [] n)), add_note_app.
    by rewrite <- app_assoc.
Qed.

Lemma add_note_nil_length (sampleRate : Z) (n : Note) :
  length (add_note sin sampleRate [] n) = note_samples sampleRate n.
Proof.
  unfold add_note, note_samples. simpl.
  by rewrite length_app, sample_loop_length, !length_replicate.
Qed.

(** X16.  [generatePCM] is a concatenation of per-note blocks: the PCM of two
    melodies played one after the other is the PCM of the first followed
    by the PCM of the second, whatever [pcm] held before. *)
Theorem generatePCM_app (notes1 notes2 : list Note) (pcm pcm' : list float32)
    (sampleRate : Z) :
  generatePCM sin (notes1 ++ notes2) pcm sampleRate
  = generatePCM sin notes1 pcm' sampleRate ++ generatePCM sin notes2 pcm' sampleRate.
Proof. unfold generatePCM. by rewrite fold_left_app, fold_add_note_app. Qed.

(** X17.  The PCM holds, for every note, its [duration_ms * sampleRate / 1000]
    tone samples and [sampleRate / 1000] gap samples. *)
Theorem generatePCM_length (notes : list Note) (pcm : list float32) (sampleRate : Z) :
  length (generatePCM sin notes pcm sampleRate)
  = sum_nat (note_samples sampleRate <$> notes).
Proof.
  unfold generatePCM. induction notes as [|n notes IH]; [done|]. simpl.
  rewrite fold_add_note_app, length_app, IH, add_note_nil_length. done.
Qed.

(** X18.  Every note's block ends in the gap of silence; a note of duration 0,
    such as a note written without duration unit, is the gap alone. *)
Theorem note_block_gap (n : Note) (pcm : list float32) (sampleRate : Z) :
  drop (Z.to_nat (sample_count (duration_ms n) sampleRate))
       (generatePCM sin [n] pcm sampleRate)
  = replicate (Z.to_nat (sampleRate / 1000)) f0_0 /\
  (duration_ms n = 0%Z ->
   generatePCM sin [n] pcm sampleRate = replicate (Z.to_nat (sampleRate / 1000)) f0_0).
Proof.
  assert (drop (Z.to_nat (sample_count (duration_ms n) sampleRate))
               (generatePCM sin [n] pcm sampleRate)
          = replicate (Z.to_nat (sampleRate / 1000)) f0_0) as Hgap.
  { unfold generatePCM, add_note. simpl.
    apply drop_app_length'. by rewrite sample_loop_length, length_replicate. }
  split; [done|]. intros Hzero. rewrite Hzero in Hgap.
  by rewrite <- Hgap.
Qed.

End SynthesisFacts.

Lemma note_block_gap_witness :
  generatePCM (fun x => x) [{| ratio := f1_0; duration_ms := 0 |}] [] 48000
  = replicate (Z.to_nat (48000 / 1000)) f0_0.
Proof.
  apply (proj2 (note_block_gap (fun x => x) {| ratio := f1_0; duration_ms := 0 |} [] 48000)).
  reflexivity.
Defined.

(** ** Audio.hpp: the playback callback *)

Lemma take_pad_irrelevant (D : list float32) (b q r : nat) :
  b <= q -> b <= r ->
  take b (D ++ replicate q f0_0) = take b (D ++ replicate r f0_0).
Proof.
  revert D q r. induction b as [|b IH]; intros D q r Hq Hr; [done|].
  destruct D as [|x D]; simpl.
  - destruct q as [|q]; [lia|]. destruct r as [|r]; [lia|]. simpl. f_equal.
    apply (IH [] q r); lia.
  - f_equal. apply IH; lia.
Qed.

Lemma take_pad_split (D : list float32) (a b p q r : nat) :
  a <= p -> b <= q -> a + b <= r ->
  take a (D ++ replicate p f0_0) ++ take b (drop a D ++ replicate q f0_0)
  = take (a + b) (D ++ replicate r f0_0).
Proof.
  revert D p r. induction a as [|a IH]; intros D p r Hp Hq Hr; simpl.
  - rewrite drop_0. apply take_pad_irrelevant; lia.
  - destruct D as [|x D]; simpl.
    + destruct p as [|p]; [lia|]. destruct r as [|r]; [lia|]. simpl. f_equal.
      specialize (IH [] p r). simpl in IH. rewrite drop_nil in IH. apply IH; lia.
    + f_equal. apply IH; lia.
Qed.

(** One call of the callback, on a state that points into its data. *)
Lemma dataCallback_next (st : PlaybackState) (out : list float32) :
  total st = Z.of_nat (length (data st)) ->
  (0 <= cursor st <= total st)%Z -> (total st < 2 ^ 64)%Z ->
  (dataCallback st out (Z.of_nat (length out))).2
  = take (length out)
      (drop (Z.to_nat (cursor st)) (data st) ++ replicate (length out) f0_0) /\
  cursor (dataCallback st out (Z.of_nat (length out))).1
  = Z.min (cursor st + Z.of_nat (length out)) (total st) /\
  data (dataCallback st out (Z.of_nat (length out))).1 = data st /\
  total (dataCallback st out (Z.of_nat (length out))).1 = total st.
Proof.
  destruct st as [dat tot cur]. simpl. intros -> Hcur Hbig.
  unfold dataCallback, uint64_wrap, memcpy, memset_zero. simpl.
  rewrite (Z.mod_small (Z.of_nat (length dat) - cur)) by lia.
  assert (exists c, cur = Z.of_nat c) as [c ->] by (exists (Z.to_nat cur); lia).
  rewrite ?Nat2Z.id.
  assert (length (drop c dat) = length dat - c) as HD by (by rewrite length_drop).
  remember (drop c dat) as D eqn:ED. clear ED.
  replace (Z.of_nat (length dat) - Z.of_nat c)%Z with (Z.of_nat (length D)) by lia.
  assert (Z.of_nat c + Z.of_nat (length D) = Z.of_nat (length dat))%Z as Hsum by lia.
  destruct (Z.of_nat (length out) <? Z.of_nat (length D))%Z eqn:Hlt.
  - (* the buffer is smaller than what is left *)
    apply Z.ltb_lt in Hlt. rewrite Z.ltb_irrefl.
    destruct (0 <? Z.of_nat (length out))%Z eqn:Hpos; simpl.
    + rewrite Z.mod_small by lia. rewrite ?Nat2Z.id.
      rewrite (drop_all out), app_nil_r, (take_app_le D) by lia.
      repeat split; try done. lia.
    + apply Z.ltb_ge in Hpos. assert (length out = 0) as HF by lia.
      rewrite (nil_length_inv out HF). simpl.
      repeat split; try done. lia.
  - (* the data ends inside the buffer, or has ended *)
    apply Z.ltb_ge in Hlt. rewrite ?Nat2Z.id.
    destruct (0 <? Z.of_nat (length D))%Z eqn:Hpos; simpl.
    + apply Z.ltb_lt in Hpos. rewrite Z.mod_small by lia.
      rewrite (take_ge D) by lia.
      destruct (Z.of_nat (length D) <? Z.of_nat (length out))%Z eqn:Hmore; simpl.
      * apply Z.ltb_lt in Hmore.
        replace (Z.to_nat (Z.of_nat (length out) - Z.of_nat (length D)))
          with (length out - length D) by lia.
        rewrite (take_app_length' D) by done.
        rewrite (drop_ge (D ++ drop (length D) out))
          by (rewrite length_app, length_drop; lia).
        rewrite app_nil_r, (take_app_ge D) by lia. rewrite take_replicate.
        replace (Nat.min (length out - length D) (length out))
          with (length out - length D) by lia.
        repeat split; try done. lia.
      * apply Z.ltb_ge in Hmore. assert (length out = length D) as HF by lia.
        rewrite (drop_ge out) by lia. rewrite app_nil_r, HF.
        rewrite (take_app_length' D) by done.
        repeat split; try done. lia.
    + apply Z.ltb_ge in Hpos. assert (length D = 0) as HL by lia.
      rewrite (nil_length_inv D HL). simpl.
      destruct (0 <? Z.of_nat (length out))%Z eqn:Hmore; simpl.
      * change (Z.of_nat 0) with 0%Z. rewrite Hmore.
        rewrite Z.sub_0_r, Nat2Z.id.
        rewrite (drop_all out), app_nil_r, take_replicate, Nat.min_id.
        repeat split; try done. lia.
      * change (Z.of_nat 0) with 0%Z. rewrite Hmore.
        apply Z.ltb_ge in Hmore. assert (length out = 0) as HF by lia.
        rewrite (nil_length_inv out HF). simpl.
        repeat split; try done. lia.
Qed.

(** X19.  Each call hands the device the next [frameCount] samples of the PCM,
    padded with silence once the PCM has run out: the whole buffer is
    overwritten, none of its old contents survive, and the cursor moves
    forward without passing the end. *)
Theorem callback_fills_buffer (pcm out : list float32) (played : nat) :
  (Z.of_nat (length pcm) < 2 ^ 64)%Z -> played <= length pcm ->
  (dataCallback {| data := pcm; total := Z.of_nat (length pcm);
                   cursor := Z.of_nat played |} out (Z.of_nat (length out))).2
  = take (length out) (drop played pcm ++ replicate (length out) f0_0) /\
  cursor (dataCallback {| data := pcm; total := Z.of_nat (length pcm);
                          cursor := Z.of_nat played |} out (Z.of_nat (length out))).1
  = Z.of_nat (Nat.min (played + length out) (length pcm)).
Proof.
  intros Hbig Hplayed.
  destruct (dataCallback_next
              {| data := pcm; total := Z.of_nat (length pcm); cursor := Z.of_nat played |}
              out) as (Hout & Hcur & _); simpl; try done; try lia.
  simpl in Hout, Hcur. rewrite Nat2Z.id in Hout. split; [done|]. lia.
Qed.

Lemma callback_fills_buffer_witness :
  (dataCallback {| data := [f1_0; f2_0; f0_5]; total := Z.of_nat 3;
                   cursor := Z.of_nat 2 |} [f0_25; f0_25] (Z.of_nat 2)).2
  = take 2 (drop 2 [f1_0; f2_0; f0_5] ++ replicate 2 f0_0) /\
  cursor (dataCallback {| data := [f1_0; f2_0; f0_5]; total := Z.of_nat 3;
                          cursor := Z.of_nat 2 |} [f0_25; f0_25] (Z.of_nat 2)).1
  = Z.of_nat (Nat.min (2 + 2) 3).
Proof.
  apply (callback_fills_buffer [f1_0; f2_0; f0_5] [f0_25; f0_25] 2);
    [reflexivity | simpl; lia].
Defined.

Lemma run_device_stream (st : PlaybackState) (buffers : list (list float32)) :
  total st = Z.of_nat (length (data st)) ->
  (0 <= cursor st <= total st)%Z -> (total st < 2 ^ 64)%Z ->
  (run_device st buffers).2
  = take (sum_nat (length <$> buffers))
      (drop (Z.to_nat (cursor st)) (data st)
       ++ replicate (sum_nat (length <$> buffers)) f0_0) /\
  cursor (run_device st buffers).1
  = Z.min (cursor st + Z.of_nat (sum_nat (length <$> buffers))) (total st).
Proof.
  revert st. induction buffers as [|out buffers IH]; intros st Htot Hcur Hbig.
  - simpl. split; [done | lia].
  - destruct (dataCallback_next st out Htot Hcur Hbig) as (Hout & Hc & Hd & Ht).
    cbn [run_device].
    destruct (dataCallback st out (Z.of_nat (length out))) as [st1 out1].
    simpl in Hout, Hc, Hd, Ht.
    destruct (IH st1) as [Houts Hcs]; [by rewrite Ht, Hd | lia | lia |].
    destruct (run_device st1 buffers) as [st2 outs]. simpl in Houts, Hcs.
    cbn [fst snd].
    change (sum_nat (length <$> out :: buffers))
      with (length out + sum_nat (length <$> buffers)).
    split; [|lia].
    rewrite Hout, Houts, Hd, Hc.
    assert (drop (Z.to_nat (Z.min (cursor st + Z.of_nat (length out)) (total st)))
                 (data st)
            = drop (length out) (drop (Z.to_nat (cursor st)) (data st))) as ->.
    { rewrite drop_drop.
      destruct (Z.le_ge_cases (cursor st + Z.of_nat (length out)) (total st)).
      - f_equal. lia.
      - rewrite !drop_ge; [done | lia | lia]. }
    apply take_pad_split; lia.
Qed.

(** X20.  The device hears the PCM once, in order, then silence: whatever the
    sizes of the buffers it asks for, all it is handed is the PCM followed
    by zeros, and the wait loop's cursor ends at the number of samples
    handed over, or at the end of the PCM. *)
Theorem device_stream (pcm : list float32) (buffers : list (list float32)) :
  (Z.of_nat (length pcm) < 2 ^ 64)%Z ->
  (run_device (playback_init pcm) buffers).2
  = take (sum_nat (length <$> buffers))
      (pcm ++ replicate (sum_nat (length <$> buffers)) f0_0) /\
  cursor (run_device (playback_init pcm) buffers).1
  = Z.of_nat (Nat.min (sum_nat (length <$> buffers)) (length pcm)).
Proof.
  intros Hbig.
  destruct (run_device_stream (playback_init pcm) buffers) as [Hout Hcur];
    simpl; try done; try lia.
  simpl in Hout, Hcur. rewrite drop_0 in Hout. split; [done|]. lia.
Qed.

Lemma device_stream_witness :
  (run_device (playback_init [f1_0; f2_0; f0_5]) [[f0_25; f0_25]; [f0_25; f0_25]]).2
  = take (sum_nat (length <$> [[f0_25; f0_25]; [f0_25; f0_25]]))
      ([f1_0; f2_0; f0_5]
       ++ replicate (sum_nat (length <$> [[f0_25; f0_25]; [f0_25; f0_25]])) f0_0) /\
  cursor (run_device (playback_init [f1_0; f2_0; f0_5])
            [[f0_25; f0_25]; [f0_25; f0_25]]).1
  = Z.of_nat (Nat.min (sum_nat (length <$> [[f0_25; f0_25]; [f0_25; f0_25]]))
                (length [f1_0; f2_0; f0_5])).
Proof. apply device_stream. reflexivity. Defined.

(** ** src/unnamed/part_001: the two passes in step *)

Lemma legacy_switch_is_mod (m : ascii) (l : Legacy.NoteLocals) :
  match Legacy.switch_mod m l with
  | Some _ => Legacy.is_mod m = true
  | None => Legacy.is_mod m = false
  end.
Proof. revert l. char_cases m. Qed.

Lemma legacy_modifier_end (rest : string_view) (k : nat) (l : Legacy.NoteLocals) :
  (Legacy.modifier_loop rest k l).1 = Legacy.skip_mods rest k.
Proof.
  revert k l. induction rest as [|m rest IH]; intros k l; simpl; [done|].
  pose proof (legacy_switch_is_mod m l) as Hm.
  destruct (Legacy.switch_mod m l) as [l'|]; rewrite Hm; [apply IH | done].
Qed.

Lemma legacy_skip_mods_bounds (rest : string_view) (k : nat) :
  k <= Legacy.skip_mods rest k <= k + length rest.
Proof.
  revert k. induction rest as [|m rest IH]; intros k; simpl; [lia|].
  destruct (Legacy.is_mod m); [|lia]. specialize (IH (S k)). lia.
Qed.

(** Both passes consume the same characters for a note. *)
Lemma legacy_note_end (score : string_view) (k : nat) :
  (Legacy.parse_note score k).1 = Legacy.count_note score k.
Proof.
  unfold Legacy.parse_note, Legacy.count_note.
  destruct (score !! k) as [c|] eqn:Hk; cbn beta iota zeta.
  - destruct (Ascii.eqb c "`"); cbn beta iota zeta.
    + destruct (score !! S k) as [d|]; cbn beta iota zeta;
        [destruct (is_scale_digit d)|]; apply legacy_modifier_end.
    + rewrite Hk. destruct (is_scale_digit c); apply legacy_modifier_end.
  - rewrite Hk. apply legacy_modifier_end.
Qed.

Lemma legacy_count_note_advance (score : string_view) (k : nat) (c : ascii) :
  score !! k = Some c -> is_note_start c = true ->
  k < Legacy.count_note score k <= length score.
Proof.
  intros Hk Hstart. apply lookup_lt_Some in Hk as Hlt.
  unfold Legacy.count_note. rewrite Hk.
  destruct (Ascii.eqb c "`") eqn:Hbt.
  - destruct (score !! S k) as [d|] eqn:Hd.
    + apply lookup_lt_Some in Hd as Hlt'.
      destruct (is_scale_digit d);
        match goal with |- context [Legacy.skip_mods ?r ?j] =>
          pose proof (legacy_skip_mods_bounds r j) as Hb end;
        rewrite length_drop in Hb; lia.
    + match goal with |- context [Legacy.skip_mods ?r ?j] =>
        pose proof (legacy_skip_mods_bounds r j) as Hb end.
      rewrite length_drop in Hb. lia.
  - assert (is_scale_digit c = true) as Hdig.
    { unfold is_note_start in Hstart. by rewrite Hbt, orb_false_r in Hstart. }
    rewrite Hk, Hdig.
    match goal with |- context [Legacy.skip_mods ?r ?j] =>
      pose proof (legacy_skip_mods_bounds r j) as Hb end.
    rewrite length_drop in Hb. lia.
Qed.

(** With room for every note, the body loop of [parse] and the scan of
    [count_notes] walk the score in step. *)
Lemma legacy_lockstep (fuel N : nat) (score : string_view) (mpb : float32)
    (st : Locals) :
  length score - i st <= fuel ->
  note_idx st + (length score - i st) <= N ->
  length (notes st) = N ->
  exists st',
    Legacy.body_loop fuel N score mpb st = Returned st' /\
    note_idx st' = Legacy.scan_body fuel score (i st) (note_idx st) /\
    length score <= i st'.
Proof.
  revert st. induction fuel as [|fuel IH]; intros [ns k pos] Hfuel Hroom Hlen;
    simpl in *.
  - assert (score !! pos = None) as Hk by (apply lookup_ge_None; lia).
    rewrite Hk. eexists. split; [done|]. simpl. split; [done|].
    apply lookup_ge_None in Hk. done.
  - destruct (score !! pos) as [c|] eqn:Hk.
    2:{ eexists. split; [done|]. simpl. split; [done|]. by apply lookup_ge_None in Hk. }
    apply lookup_lt_Some in Hk as Hlt.
    assert ((k <? N) = true) as -> by (apply Nat.ltb_lt; lia).
    destruct (Legacy.is_separator c).
    { apply (IH {| notes := ns; note_idx := k; i := S pos |}); simpl; lia. }
    destruct (is_note_start c) eqn:Hstart.
    + pose proof (legacy_count_note_advance score pos c Hk Hstart) as Hadv.
      rewrite <- legacy_note_end in *.
      destruct (Legacy.parse_note score pos) as [pos' l]. simpl in Hadv.
      unfold store. assert ((k <? length ns) = true) as -> by (apply Nat.ltb_lt; lia).
      apply (IH {| notes := <[k:=Legacy.emit mpb l]> ns; note_idx := S k; i := pos' |});
        simpl; rewrite ?length_insert; lia.
    + apply (IH {| notes := ns; note_idx := k; i := S pos |}); simpl; lia.
Qed.

(** X21.  In this version the counting pass is exact wherever the two header
    readers agree on where the body starts: [count_notes] is the number of
    notes [parse] writes when capacity does not limit it, and that parse
    reads the score to its end. *)
Theorem legacy_count_exact (score : string_view) :
  Legacy.skip_header (length score) score 0 = (Legacy.parse_header score).2 ->
  exists full,
    Legacy.parse (length score) score = Returned full /\
    note_idx full = Legacy.count_notes score /\
    length score <= i full.
Proof.
  intros Hhead. unfold Legacy.parse, Legacy.count_notes. rewrite Hhead.
  destruct (Legacy.parse_header score) as [[bpm beat] i0]. simpl.
  destruct (legacy_lockstep (length score - i0) (length score) score
              (div f60000_0 (of_int bpm))
              {| notes := replicate (length score) {| ratio := f0_0; duration_ms := 0 |};
                 note_idx := 0; i := i0 |})
    as (full & Hrun & Hcount & Hend); simpl;
    [lia | lia | by rewrite length_replicate |].
  exists full. done.
Qed.

Lemma legacy_count_exact_witness :
  exists full,
    Legacy.parse (length (sv "(120){4}1,` 2`,`"))
      (sv "(120){4}1,` 2`,`") = Returned full /\
    note_idx full = Legacy.count_notes (sv "(120){4}1,` 2`,`") /\
    length (sv "(120){4}1,` 2`,`") <= i full.
Proof. apply legacy_count_exact. reflexivity. Defined.

(** ** src/unnamed/part_001: durations and pitch *)

Lemma legacy_switch_dur (m : ascii) (l l' : Legacy.NoteLocals) :
  Legacy.switch_mod m l = Some l' ->
  Legacy.dur_mult l' =
  if is_duration_modifier m then duration_unit m else Legacy.dur_mult l.
Proof.
  revert l l'. destruct m as [[] [] [] [] [] [] [] []]; intros l l' H;
    vm_compute in H; simplify_eq; reflexivity.
Qed.

Lemma legacy_modifier_loop_last (rest : string_view) (j : nat) (l : Legacy.NoteLocals) :
  Legacy.dur_mult (Legacy.modifier_loop rest j l).2 =
  last_unit_from (Legacy.dur_mult l)
    (take ((Legacy.modifier_loop rest j l).1 - j) rest).
Proof.
  revert j l. induction rest as [|m rest IH]; intros j l; simpl;
    [by rewrite take_nil|].
  destruct (Legacy.switch_mod m l) as [l'|] eqn:Hsw; simpl.
  - pose proof (legacy_skip_mods_bounds rest (S j)) as Hb.
    rewrite <- (legacy_modifier_end rest (S j) l') in Hb.
    replace ((Legacy.modifier_loop rest (S j) l').1 - j)
      with (S ((Legacy.modifier_loop rest (S j) l').1 - S j)) by lia.
    rewrite IH, (legacy_switch_dur m l l' Hsw). done.
  - by rewrite Nat.sub_diag.
Qed.

(** X22.  In this version a duration unit sets the duration: a note lasts the
    unit of the last duration modifier it consumed, and one beat when it
    has none. *)
Theorem legacy_last_unit_wins (score : string_view) (j : nat) (c : ascii) :
  score !! j = Some c -> is_note_start c = true ->
  Legacy.dur_mult (Legacy.parse_note score j).2
  = last_unit_from f1_0 (legacy_note_text score j).
Proof.
  intros Hj Hstart. unfold legacy_note_text.
  pose proof (legacy_count_note_advance score j c Hj Hstart) as Hadv.
  rewrite <- legacy_note_end in Hadv. revert Hadv.
  unfold Legacy.parse_note. rewrite Hj.
  pose proof (note_start_not_duration c Hstart) as Hnd.
  assert (forall j2 l2 (pre : string_view),
    drop j score = pre ++ drop j2 score -> j2 = j + length pre ->
    last_unit_from f1_0 pre = f1_0 -> Legacy.dur_mult l2 = f1_0 ->
    Legacy.dur_mult (Legacy.modifier_loop (drop j2 score) j2 l2).2 =
    last_unit_from f1_0
      (take ((Legacy.modifier_loop (drop j2 score) j2 l2).1 - j) (drop j score))) as Hgen.
  { intros j2 l2 pre Hsplit -> Hpre Hl2.
    pose proof (legacy_skip_mods_bounds (drop (j + length pre) score) (j + length pre)) as Hb.
    rewrite <- (legacy_modifier_end _ _ l2) in Hb.
    rewrite legacy_modifier_loop_last, Hl2, Hsplit.
    replace ((Legacy.modifier_loop (drop (j + length pre) score) (j + length pre) l2).1 - j)
      with (length pre +
            ((Legacy.modifier_loop (drop (j + length pre) score) (j + length pre) l2).1
             - (j + length pre))) by lia.
    rewrite take_app_add. unfold last_unit_from in *.
    by rewrite fold_left_app, Hpre. }
  destruct (Ascii.eqb c "`") eqn:Hbt.
  - destruct (score !! S j) as [d|] eqn:Hd.
    + destruct (is_scale_digit d) eqn:Hdig; intros _.
      * apply (Hgen _ _ [c; d]); try done; try (simpl; lia).
        -- by rewrite (lookup_drop_head score j c Hj), (lookup_drop_head score (S j) d Hd).
        -- unfold last_unit_from. simpl.
           by rewrite Hnd, (scale_digit_not_duration d Hdig).
      * apply (Hgen _ _ [c]); try done; try (simpl; lia).
        -- by rewrite (lookup_drop_head score j c Hj).
        -- unfold last_unit_from. simpl. by rewrite Hnd.
    + intros _. apply (Hgen _ _ [c]); try done; try (simpl; lia).
      * by rewrite (lookup_drop_head score j c Hj).
      * unfold last_unit_from. simpl. by rewrite Hnd.
  - assert (is_scale_digit c = true) as Hdig.
    { unfold is_note_start in Hstart. by rewrite Hbt, orb_false_r in Hstart. }
    rewrite Hj, Hdig. intros _.
    apply (Hgen _ _ [c]); try done; try (simpl; lia).
    + by rewrite (lookup_drop_head score j c Hj).
    + unfold last_unit_from. simpl. by rewrite Hnd.
Qed.

Lemma legacy_last_unit_wins_witness :
  Legacy.dur_mult (Legacy.parse_note (sv "1,-2") 0).2
  = last_unit_from f1_0 (legacy_note_text (sv "1,-2") 0).
Proof. apply (legacy_last_unit_wins (sv "1,-2") 0 "1"); reflexivity. Defined.

(** X23.  The pitch resolver of the header file is the one of this version moved
    down nine semitones, from Do to La: for every note number and offsets,
    [calculate_ratio n o s] is the earlier [calculate_ratio n o (s - 9)]. *)
Theorem ratio_shifted_to_A4 (n o s : Z) :
  calculate_ratio n o s = Legacy.calculate_ratio n o (s - 9).
Proof.
  unfold calculate_ratio, Legacy.calculate_ratio.
  destruct (n =? 0)%Z; [done|]. f_equal. lia.
Qed.
